(** * generate_config.py: merging Skland accounts into config.yaml

    A shallow embedding of [src/generate_config.py] and the properties of
    its merge algorithm.

    Conventions of the embedding.
    - A Python [str] is a list of Unicode code points ([str] below);
      comparison, [strip], [endswith] and slicing act on code points as
      they do in Python.
    - The value returned by [json.loads] is a [json] tree.  [json.loads]
      itself is library code: it is a variable of the section, a
      function that returns a value or raises [JSONDecodeError].  A text
      nested so deeply that the decoder raises [RecursionError] instead
      is outside the embedding.
    - [print] appends a [message] to [stdout]; [sys.exit] and [raise]
      are results of the [M] monad.  [stdout] encodes its text as UTF-8
      with the strict error handler, as Python sets it up by default: a
      text that holds a surrogate code point is not written and [print]
      raises [UnicodeEncodeError], a [ValueError].
    - A nickname or token of the bulk array that is truthy but not a
      JSON string is outside the data model of the program (accounts
      hold strings); the embedding stops there with [NotModelled] and
      no property is claimed about such runs. *)

From Stdlib Require Import ZArith NArith Floats Strings.String Strings.Ascii Strings.Byte DecimalNat.
From Stdlib Require Import Sorting.Sorted.
From stdpp Require Import base decidable option numbers list sets gmap.

Set Warnings "-register-all,-clear-no-such-hyp".
Local Open Scope nat_scope.

(** ** Python strings *)

Abbreviation str := (list N).

(** Decoding of a UTF-8 literal of this file into code points, so that
    the constants of the source can be written as they are there. *)
Fixpoint utf8_decode (bs : list N) : str :=
  let cont b := (b - 128)%N in
  match bs with
  | [] => []
  | b :: r =>
    if (b <? 128)%N then b :: utf8_decode r
    else if (b <? 224)%N then
      match r with
      | c1 :: r1 => ((b - 192) * 64 + cont c1)%N :: utf8_decode r1
      | _ => []
      end
    else if (b <? 240)%N then
      match r with
      | c1 :: c2 :: r2 =>
        ((b - 224) * 4096 + cont c1 * 64 + cont c2)%N :: utf8_decode r2
      | _ => []
      end
    else
      match r with
      | c1 :: c2 :: c3 :: r3 =>
        ((b - 240) * 262144 + cont c1 * 4096 + cont c2 * 64 + cont c3)%N
          :: utf8_decode r3
      | _ => []
      end
  end.

Definition u (s : string) : str :=
  utf8_decode (map Byte.to_N (list_byte_of_string s)).

(** [str.isspace] on one code point: the table of CPython's
    [_PyUnicode_IsWhitespace]. *)
Definition isspace (c : N) : bool :=
  ((9 <=? c) && (c <=? 13) || (28 <=? c) && (c <=? 32)
   || (c =? 133) || (c =? 160) || (c =? 5760)
   || (8192 <=? c) && (c <=? 8202)
   || (c =? 8232) || (c =? 8233) || (c =? 8239) || (c =? 8287)
   || (c =? 12288))%N.

Fixpoint lstrip (s : str) : str :=
  match s with
  | c :: r => if isspace c then lstrip r else s
  | [] => []
  end.

Definition rstrip (s : str) : str := rev (lstrip (rev s)).

(** [s.strip()] *)
Definition strip (s : str) : str := rstrip (lstrip s).

(** [s.endswith(suffix)] *)
Definition endswith (s suffix : str) : bool :=
  bool_decide (length suffix <= length s)
  && bool_decide (drop (length s - length suffix) s = suffix).

(** [s[:-n]] for [n > 0]: everything but the last [n] code points. *)
Definition slice_to_neg (n : nat) (s : str) : str := take (length s - n) s.

(** Truth value of a string: [bool(s)]. *)
Definition str_truthy (s : str) : bool :=
  match s with [] => false | _ => true end.

(** [s1 < s2] on strings: lexicographic on code points. *)
Fixpoint str_lt (s1 s2 : str) : bool :=
  match s1, s2 with
  | _, [] => false
  | [], _ :: _ => true
  | c1 :: r1, c2 :: r2 =>
    if (c1 <? c2)%N then true
    else if (c2 <? c1)%N then false
    else str_lt r1 r2
  end.

(** A code point that UTF-8 does not encode: a surrogate, U+D800 to
    U+DFFF.  A decoded JSON text holds one when it escapes it alone. *)
Definition is_surrogate (c : N) : bool := ((55296 <=? c) && (c <=? 57343))%N.

(** [s.encode('utf-8')] does not raise. *)
Definition encodable (s : str) : bool := negb (existsb is_surrogate s).

(** [str(n)] for a non-negative integer. *)
Fixpoint uint_digits (d : Decimal.uint) : str :=
  match d with
  | Decimal.Nil => []
  | Decimal.D0 d => 48%N :: uint_digits d
  | Decimal.D1 d => 49%N :: uint_digits d
  | Decimal.D2 d => 50%N :: uint_digits d
  | Decimal.D3 d => 51%N :: uint_digits d
  | Decimal.D4 d => 52%N :: uint_digits d
  | Decimal.D5 d => 53%N :: uint_digits d
  | Decimal.D6 d => 54%N :: uint_digits d
  | Decimal.D7 d => 55%N :: uint_digits d
  | Decimal.D8 d => 56%N :: uint_digits d
  | Decimal.D9 d => 57%N :: uint_digits d
  end.

Definition str_of_nat (n : nat) : str := uint_digits (Nat.to_uint n).

(** ** Module constants and [remove_marker] *)

Definition MARKER : str := u "_END".

Definition remove_marker (secret_value : str) : str :=
  if str_truthy secret_value && endswith secret_value MARKER
  then slice_to_neg (length MARKER) secret_value
  else secret_value.

Definition DEFAULT_NICKNAME_PREFIX : str := u "未命名账号".

(** The literal used for a standalone account without a nickname. *)
Definition STANDALONE_NICKNAME : str := u "未命名账号-独立".

(** The f-string of [get_next_default_nickname]. *)
Definition default_nickname (n : nat) : str :=
  DEFAULT_NICKNAME_PREFIX ++ u "-" ++ str_of_nat n.

(** ** JSON values, as [json.loads] returns them *)

(** An object is the list of its members in insertion order, as a Python
    dict keeps them; the keys of a decoded object are pairwise distinct. *)
Inductive json :=
| JNull
| JBool (b : bool)
| JInt (z : Z)
| JFloat (f : float)
| JStr (s : str)
| JArr (items : list json)
| JObj (members : list (str * json)).

(** [bool(v)] *)
Definition truthy (v : json) : bool :=
  match v with
  | JNull => false
  | JBool b => b
  | JInt z => negb (z =? 0)%Z
  | JFloat f => negb (PrimFloat.eqb f 0%float)
  | JStr s => str_truthy s
  | JArr items => match items with [] => false | _ => true end
  | JObj members => match members with [] => false | _ => true end
  end.

(** [key in d] and [d.get(key, dflt)] *)
Fixpoint dict_find (key : str) (members : list (str * json)) : option json :=
  match members with
  | [] => None
  | (k, v) :: rest => if bool_decide (k = key) then Some v else dict_find key rest
  end.

Definition dict_contains (key : str) (members : list (str * json)) : bool :=
  match dict_find key members with Some _ => true | None => false end.

Definition dict_get (key : str) (dflt : json) (members : list (str * json)) : json :=
  default dflt (dict_find key members).

(** ** Accounts, the configuration document, messages *)

Record account := mkAccount { nickname : str; token : str }.

Record config := mkConfig { log_level : str; users : list account }.

Inductive shape := Compact | Explicit.

(** What the clause [except (TypeError, ValueError)] reports: the two
    [TypeError]s the program raises itself, and the [UnicodeEncodeError]
    of a [print] in the loops. *)
Inductive type_error := RootNotArray | NeitherShape | SurrogatesNotAllowed.

(** What [json.JSONDecodeError] and an I/O exception carry. *)
Record decode_error := mkDecodeError { msg : str; pos : nat }.
Record io_error := mkIoError { strerror : str }.

(** The exceptions that occur in a run. *)
Inductive exn :=
| JSONDecodeError (e : decode_error)
| TypeError (e : type_error)
| IndexError
| AttributeError
| OSError (e : io_error)
| UnicodeEncodeError
| SystemExit (code : Z)
| NotModelled.

(** One constructor per [print] of the source, in source order. *)
Inductive message :=
| MsgStart
| MsgBulkDetected
| MsgShape (f : shape)
| WarnEmptyToken (f : shape)
| WarnDuplicateToken (f : shape) (nick : str)
| MsgBulkLoaded (n : nat)
| ErrInvalidJson (e : decode_error)
| ErrBadFormat (e : type_error)
| MsgStandaloneDetected
| MsgStandaloneLoaded
| WarnStandaloneDuplicate
| ErrNoAccounts
| MsgDone (n : nat)
| ErrWrite (e : exn).

Definition is_warning (m : message) : bool :=
  match m with
  | WarnEmptyToken _ | WarnDuplicateToken _ _ | WarnStandaloneDuplicate => true
  | _ => false
  end.

Definition is_error (m : message) : bool :=
  match m with
  | ErrInvalidJson _ | ErrBadFormat _ | ErrNoAccounts | ErrWrite _ => true
  | _ => false
  end.

(** ** The process: state, exceptions, the monad [M] *)

(** [config.yaml] as the run leaves it: not opened, opened for writing
    but not completely dumped, or holding the dumped document. *)
Inductive file := Untouched | Truncated | Dumped (c : config).

Record state := mkState {
  unnamed_account_counter : nat;
  stdout : list message;
  config_yaml : file
}.

(** The state a fresh interpreter starts from. *)
Definition initial_state : state :=
  {| unnamed_account_counter := 0; stdout := []; config_yaml := Untouched |}.

Definition M (A : Type) : Type := state -> (exn + A) * state.

Definition ret {A} (a : A) : M A := fun s => (inr a, s).

Definition bind {A B} (m : M A) (k : A -> M B) : M B :=
  fun s => match m s with
           | (inr a, s') => k a s'
           | (inl e, s') => (inl e, s')
           end.

Definition raise {A} (e : exn) : M A := fun s => (inl e, s).

(** [try: body except ...: handler]; [handler e = None] when no clause
    matches [e]. *)
Definition try_except {A} (body : M A) (handler : exn -> option (M A)) : M A :=
  fun s => match body s with
           | (inr a, s') => (inr a, s')
           | (inl e, s') =>
             match handler e with
             | Some h => h s'
             | None => (inl e, s')
             end
           end.

#[global] Instance M_ret : MRet M := @ret.
#[global] Instance M_bind : MBind M := fun A B k m => bind m k.

(** The three updates of the state, and the statements that make them. *)
Definition emit (m : message) (s : state) : state :=
  {| unnamed_account_counter := unnamed_account_counter s;
     stdout := stdout s ++ [m];
     config_yaml := config_yaml s |}.

Definition with_counter (n : nat) (s : state) : state :=
  {| unnamed_account_counter := n;
     stdout := stdout s;
     config_yaml := config_yaml s |}.

Definition with_file (f : file) (s : state) : state :=
  {| unnamed_account_counter := unnamed_account_counter s;
     stdout := stdout s;
     config_yaml := f |}.

(** The text of [m] can be written to [stdout].  Of the texts the
    program prints, one holds text of the input: the warning for a
    duplicate token, which shows the nickname of the entry.  The others
    are literals of the source, counts, and the text of an exception,
    which is a literal of the source or is rendered in ASCII. *)
Definition printable (m : message) : bool :=
  match m with
  | WarnDuplicateToken _ nick => encodable nick
  | _ => true
  end.

(** [print(...)]: the text is encoded before anything is written. *)
Definition print (m : message) : M unit :=
  fun s => if printable m then (inr tt, emit m s)
           else (inl UnicodeEncodeError, s).

Definition sys_exit {A} (code : Z) : M A := raise (SystemExit code).

Definition set_counter (n : nat) : M unit := fun s => (inr tt, with_counter n s).

Definition set_file (f : file) : M unit := fun s => (inr tt, with_file f s).

(** ** [get_next_default_nickname] *)

Definition get_next_default_nickname : M str :=
  fun s =>
    let n := S (unnamed_account_counter s) in
    (inr (default_nickname n), with_counter n s).

(** ** The inputs of a run *)

(** [os.environ] restricted to the three variables the program reads;
    [None] is an unset variable.  [os.environ.get(name, '')] is
    [default [] (field env)]. *)
Record environ := mkEnviron {
  SKLAND_ACCOUNTS_JSON : option str;
  SKLAND_TOKEN : option str;
  SKLAND_NICKNAME : option str
}.

(** How the file system answers [open('config.yaml', 'w')] followed by
    [yaml.dump]. *)
Inductive disk := WriteOk | OpenFails (e : io_error) | DumpFails (e : io_error).

(** ** Sorting: [accounts.sort(key=lambda x: x.get('nickname', ''))]

    [list.sort] is stable and compares keys with [<] only; every account
    built by the program has a ['nickname'] entry, so the key is the
    nickname. *)
Definition sort_key (x : account) : str := nickname x.

Fixpoint insert_sorted (x : account) (l : list account) : list account :=
  match l with
  | [] => [x]
  | y :: l' =>
    if str_lt (sort_key y) (sort_key x) then y :: insert_sorted x l'
    else x :: l
  end.

Definition list_sort (l : list account) : list account :=
  foldr insert_sorted [] l.

(** ** Inputs for the examples *)

(** A decoder given by its graph: [loads_table tbl] decodes the texts
    listed in [tbl] to the values given with them and rejects every
    other text. *)
Fixpoint loads_table (tbl : list (str * json)) (text : str) : decode_error + json :=
  match tbl with
  | [] => inl {| msg := u "Expecting value"; pos := 0 |}
  | (t, v) :: rest => if bool_decide (t = text) then inr v else loads_table rest text
  end.

(** A JSON text written with apostrophes in place of quotation marks. *)
Definition q (s : string) : str :=
  map (fun c => if (c =? 39)%N then 34%N else c) (u s).

(** The texts of the examples with the values [json.loads] gives them. *)
Definition example_texts : list (str * json) :=
  [ (q "[{'a':'t1'},{'':'t2'}]",
     JArr [JObj [(u "a", JStr (u "t1"))]; JObj [([], JStr (u "t2"))]]);
    (q "[{'nickname':'a','token':'t1'}]",
     JArr [JObj [(u "nickname", JStr (u "a")); (u "token", JStr (u "t1"))]]);
    (q "[{'':'t1'},{'':'t1'},{'':'t2'}]",
     JArr [JObj [([], JStr (u "t1"))]; JObj [([], JStr (u "t1"))];
           JObj [([], JStr (u "t2"))]]);
    (q "[{'nickname':'b','token':'t1'},{'nickname':'a','token':'t2'},{'nickname':'b','token':'t3'}]",
     JArr [JObj [(u "nickname", JStr (u "b")); (u "token", JStr (u "t1"))];
           JObj [(u "nickname", JStr (u "a")); (u "token", JStr (u "t2"))];
           JObj [(u "nickname", JStr (u "b")); (u "token", JStr (u "t3"))]]);
    (q "[]", JArr []);
    (q "{'a':'t1'}", JObj [(u "a", JStr (u "t1"))]);
    (q "[{'a':'t1','b':'t2'}]",
     JArr [JObj [(u "a", JStr (u "t1")); (u "b", JStr (u "t2"))]]) ].

Definition example_loads : str -> decode_error + json := loads_table example_texts.

Definition bulk_only (text : str) : environ :=
  {| SKLAND_ACCOUNTS_JSON := Some text; SKLAND_TOKEN := None;
     SKLAND_NICKNAME := None |}.

(** The scenarios of the specification. *)
Definition scenario1 : environ := bulk_only (q "[{'a':'t1'},{'':'t2'}]").

Definition scenario2 : environ :=
  {| SKLAND_ACCOUNTS_JSON := Some (q "[{'nickname':'a','token':'t1'}]");
     SKLAND_TOKEN := Some (u "t1");
     SKLAND_NICKNAME := None |}.

Definition scenario3 : environ :=
  {| SKLAND_ACCOUNTS_JSON := None; SKLAND_TOKEN := None; SKLAND_NICKNAME := None |}.

Definition scenario4 : environ := bulk_only (u "[invalid").

Definition scenario5 : environ :=
  {| SKLAND_ACCOUNTS_JSON := None;
     SKLAND_TOKEN := Some (u "tok");
     SKLAND_NICKNAME := Some (u "  Alice_END  ") |}.


(** Two accounts with the same nickname around a smaller one. *)
Definition equal_nicknames : environ :=
  bulk_only (q "[{'nickname':'b','token':'t1'},{'nickname':'a','token':'t2'},{'nickname':'b','token':'t3'}]").

Definition empty_array : environ := bulk_only (q "[]").

Section Program.

(** [json.loads]: a decoded value or a [JSONDecodeError]. *)
Variable json_loads : str -> decode_error + json.

(** ** [load_and_merge_accounts] *)

(** The local variables [final_accounts] and [seen_tokens]. *)
Record locals := mkLocals {
  final_accounts : list account;
  seen_tokens : gset str
}.

(** A value used where the program needs a string. *)
Definition as_str (v : json) : M str :=
  match v with
  | JStr s => mret s
  | _ => raise NotModelled
  end.

(** The body shared by the two [for item in raw_data] loops, from the
    computation of [nickname] on; [f] only selects the wording of the
    warnings. *)
Definition accept_or_skip (f : shape) (raw_nickname tok : json) (l : locals)
  : M locals :=
  nick ← (if truthy raw_nickname then as_str raw_nickname
          else get_next_default_nickname);
  if truthy tok then
    t ← as_str tok;
    if bool_decide (t ∉ seen_tokens l) then
      mret {| final_accounts := final_accounts l ++ [mkAccount nick t];
              seen_tokens := {[t]} ∪ seen_tokens l |}
    else
      print (WarnDuplicateToken f nick);; mret l
  else
    print (WarnEmptyToken f);; mret l.

(** [all(isinstance(item, dict) and len(item) == 1 for item in raw_data)] *)
Definition is_single_key (item : json) : bool :=
  match item with
  | JObj members => bool_decide (length members = 1)
  | _ => false
  end.

(** [all(isinstance(item, dict) and 'nickname' in item and 'token' in item
    for item in raw_data)] *)
Definition has_nickname_and_token (item : json) : bool :=
  match item with
  | JObj members =>
    dict_contains (u "nickname") members && dict_contains (u "token") members
  | _ => false
  end.

Fixpoint compact_loop (raw_data : list json) (l : locals) : M locals :=
  match raw_data with
  | [] => mret l
  | item :: rest =>
    match item with
    | JObj ((raw_nickname, tok) :: _) =>
      l' ← accept_or_skip Compact (JStr raw_nickname) tok l;
      compact_loop rest l'
    | JObj [] => raise IndexError
    | _ => raise AttributeError
    end
  end.

Fixpoint explicit_loop (raw_data : list json) (l : locals) : M locals :=
  match raw_data with
  | [] => mret l
  | item :: rest =>
    match item with
    | JObj members =>
      let tok := dict_get (u "token") (JStr []) members in
      let raw_nickname := dict_get (u "nickname") (JStr []) members in
      l' ← accept_or_skip Explicit raw_nickname tok l;
      explicit_loop rest l'
    | _ => raise AttributeError
    end
  end.

(** The body of the [try] block. *)
Definition parse_bulk (json_str : str) (l : locals) : M locals :=
  raw_data ← (match json_loads json_str with
              | inr v => mret v
              | inl e => raise (JSONDecodeError e)
              end);
  l' ← (match raw_data with
        | JArr items =>
          if forallb is_single_key items then
            print (MsgShape Compact);; compact_loop items l
          else if forallb has_nickname_and_token items then
            print (MsgShape Explicit);; explicit_loop items l
          else raise (TypeError NeitherShape)
        | _ => raise (TypeError RootNotArray)
        end);
  print (MsgBulkLoaded (length (final_accounts l')));;
  mret l'.

(** The two [except] clauses: [json.JSONDecodeError], then
    [(TypeError, ValueError)], which also catches the
    [UnicodeEncodeError] of a [print] of the loops. *)
Definition bulk_handler (e : exn) : option (M locals) :=
  match e with
  | JSONDecodeError d => Some (print (ErrInvalidJson d);; sys_exit 1)
  | TypeError t => Some (print (ErrBadFormat t);; sys_exit 1)
  | UnicodeEncodeError =>
    Some (print (ErrBadFormat SurrogatesNotAllowed);; sys_exit 1)
  | _ => None
  end.

Definition load_bulk (env : environ) (l : locals) : M locals :=
  let json_str := default [] (SKLAND_ACCOUNTS_JSON env) in
  if str_truthy json_str then
    print MsgBulkDetected;;
    try_except (parse_bulk json_str l) bulk_handler
  else mret l.

Definition standalone_nickname (env : environ) : str :=
  remove_marker (strip (default [] (SKLAND_NICKNAME env))).

Definition load_standalone (env : environ) (l : locals) : M locals :=
  let tok := default [] (SKLAND_TOKEN env) in
  let nick := standalone_nickname env in
  if str_truthy tok then
    print MsgStandaloneDetected;;
    if bool_decide (tok ∉ seen_tokens l) then
      let final_nickname := if str_truthy nick then nick else STANDALONE_NICKNAME in
      print MsgStandaloneLoaded;;
      mret {| final_accounts := final_accounts l ++ [mkAccount final_nickname tok];
              seen_tokens := {[tok]} ∪ seen_tokens l |}
    else
      print WarnStandaloneDuplicate;; mret l
  else mret l.

(** Steps 1 and 2 of the function: both sources, in this order. *)
Definition merge_sources (env : environ) : M locals :=
  print MsgStart;;
  let l0 := {| final_accounts := []; seen_tokens := ∅ |} in
  set_counter 0;;
  l1 ← load_bulk env l0;
  load_standalone env l1.

Definition load_and_merge_accounts (env : environ) : M (list account) :=
  l2 ← merge_sources env;
  match final_accounts l2 with
  | [] => print ErrNoAccounts;; sys_exit 1
  | _ => mret (final_accounts l2)
  end.

(** ** [main] *)

(** [with open(...) as f: yaml.dump(config, f, ...)] *)
Definition write_config (d : disk) (c : config) : M unit :=
  match d with
  | OpenFails e => raise (OSError e)
  | DumpFails e => set_file Truncated;; raise (OSError e)
  | WriteOk => set_file (Dumped c)
  end.

(** [except Exception as e]: every exception but [SystemExit]. *)
Definition main_handler (e : exn) : option (M unit) :=
  match e with
  | SystemExit _ | NotModelled => None
  | _ => Some (print (ErrWrite e);; sys_exit 1)
  end.

Definition main (env : environ) (d : disk) : M unit :=
  accounts ← load_and_merge_accounts env;
  let accounts := list_sort accounts in
  let cfg := {| log_level := u "info"; users := accounts |} in
  try_except
    (write_config d cfg;;
     print (MsgDone (length accounts)))
    main_handler.

(** The exit status of the interpreter for a result of [main]. *)
Definition exit_status (r : exn + unit) : option Z :=
  match r with
  | inr _ => Some 0%Z
  | inl (SystemExit code) => Some code
  | inl NotModelled => None
  | inl _ => Some 1%Z
  end.

(** A whole run of the script from a fresh interpreter. *)
Definition run (env : environ) (d : disk) : (exn + unit) * state :=
  main env d initial_state.

(** ** The bulk array seen as typed entries

    The definitions of this part are not in the source: they describe
    the input and name what the statements below talk about. *)

(** A nickname or token as the loops use it: a JSON string as it is, any
    falsy value like the empty string; a truthy value that is not a
    string has no typed reading. *)
Definition typed (v : json) : option str :=
  match v with
  | JStr s => Some s
  | _ => if truthy v then None else Some []
  end.

(** One entry of the bulk array: the nickname and the token it gives. *)
Record entry := mkEntry { raw_nickname : str; raw_token : str }.

Definition unnamed (e : entry) : bool := negb (str_truthy (raw_nickname e)).

(** The two values a loop reads from an item. *)
Definition item_fields (f : shape) (item : json) : option (json * json) :=
  match f, item with
  | Compact, JObj ((k, v) :: _) => Some (JStr k, v)
  | Explicit, JObj members =>
    Some (dict_get (u "nickname") (JStr []) members,
          dict_get (u "token") (JStr []) members)
  | _, _ => None
  end.

Definition typed_entry (f : shape) (item : json) : option entry :=
  match item_fields f item with
  | Some (rn, tk) =>
    match typed rn, typed tk with
    | Some n, Some t => Some (mkEntry n t)
    | _, _ => None
    end
  | None => None
  end.

Fixpoint typed_entries (f : shape) (items : list json) : option (list entry) :=
  match items with
  | [] => Some []
  | item :: rest =>
    match typed_entry f item, typed_entries f rest with
    | Some e, Some es => Some (e :: es)
    | _, _ => None
    end
  end.

(** The entries of the items that come before the first item without a
    typed reading. *)
Fixpoint typed_prefix (f : shape) (items : list json) : list entry :=
  match items with
  | [] => []
  | item :: rest =>
    match typed_entry f item with
    | Some e => e :: typed_prefix f rest
    | None => []
    end
  end.

(** The shape the two [all(...)] tests select. *)
Definition detect_shape (items : list json) : option shape :=
  if forallb is_single_key items then Some Compact
  else if forallb has_nickname_and_token items then Some Explicit
  else None.

(** The bulk source of a run, when it is an array of an accepted shape
    whose nicknames and tokens are typed. *)
Definition bulk_entries (env : environ) : option (shape * list entry) :=
  let json_str := default [] (SKLAND_ACCOUNTS_JSON env) in
  if str_truthy json_str then
    match json_loads json_str with
    | inr (JArr items) =>
      match detect_shape items with
      | Some f =>
        match typed_entries f items with
        | Some es => Some (f, es)
        | None => None
        end
      | None => None
      end
    | _ => None
    end
  else None.

(** What one turn of a loop does on a typed entry. *)
Definition step_entry (f : shape) (ls : locals * state) (e : entry)
  : locals * state :=
  let '(l, s) := ls in
  let nick := if unnamed e then default_nickname (S (unnamed_account_counter s))
              else raw_nickname e in
  let s1 := if unnamed e then with_counter (S (unnamed_account_counter s)) s
            else s in
  if str_truthy (raw_token e) then
    if bool_decide (raw_token e ∉ seen_tokens l) then
      ({| final_accounts := final_accounts l ++ [mkAccount nick (raw_token e)];
          seen_tokens := {[raw_token e]} ∪ seen_tokens l |}, s1)
    else (l, emit (WarnDuplicateToken f nick) s1)
  else (l, emit (WarnEmptyToken f) s1).

Definition run_entries (f : shape) (es : list entry) (ls : locals * state)
  : locals * state :=
  foldl (step_entry f) ls es.

(** The tokens seen after a turn of a loop on [e]. *)
Definition seen_after (seen : gset str) (e : entry) : gset str :=
  (if str_truthy (raw_token e) then {[raw_token e]} else ∅) ∪ seen.

(** The turn of a loop on [e] prints what it has to print: [e] is not
    a duplicate, or its nickname can be encoded. *)
Definition entry_prints (seen : gset str) (e : entry) : bool :=
  negb (str_truthy (raw_token e) && bool_decide (raw_token e ∈ seen))
  || encodable (raw_nickname e).

(** Every turn of a loop on [es] prints what it has to print. *)
Fixpoint prints_ok (seen : gset str) (es : list entry) : bool :=
  match es with
  | [] => true
  | e :: rest => entry_prints seen e && prints_ok (seen_after seen e) rest
  end.

(** The entries a loop goes through: all of them, or those before the
    first whose warning cannot be printed. *)
Fixpoint printed_prefix (seen : gset str) (es : list entry) : list entry :=
  match es with
  | [] => []
  | e :: rest =>
    if entry_prints seen e then e :: printed_prefix (seen_after seen e) rest
    else []
  end.

(** The 1-based rank of entry [i] among the entries without a nickname. *)
Definition rank (es : list entry) (i : nat) : nat :=
  length (filter (fun e => unnamed e = true) (take (S i) es)).

(** Entry [i] is accepted when its token is not empty and no entry
    before it (nor [seen]) has the same token. *)
Definition accepted_at (seen : gset str) (es : list entry) (i : nat) (e : entry)
  : bool :=
  str_truthy (raw_token e)
  && bool_decide (raw_token e ∉ seen)
  && bool_decide (raw_token e ∉ raw_token <$> take i es).

Definition account_at (c : nat) (seen : gset str) (es : list entry)
  (i : nat) (e : entry) : option account :=
  if accepted_at seen es i e then
    Some (mkAccount (if unnamed e then default_nickname (c + rank es i)
                     else raw_nickname e)
                    (raw_token e))
  else None.

(** The accounts the bulk source contributes, read off the entries. *)
Definition bulk_accounts (es : list entry) : list account :=
  omap id (imap (account_at 0 ∅ es) es).

(** The distinct non-empty tokens of the entries. *)
Definition distinct_tokens (es : list entry) : gset str :=
  list_to_set (filter (fun t => t <> []) (raw_token <$> es)).

(** [s1 <= s2] on strings. *)
Definition str_le (s1 s2 : str) : Prop := str_lt s2 s1 = false.

(** ** Notions used in the statements

    Like the typed entries, the definitions of this part are not in the
    source. *)

(** The loop and the test of a shape. *)
Definition bulk_loop (f : shape) : list json -> locals -> M locals :=
  match f with Compact => compact_loop | Explicit => explicit_loop end.

Definition shape_test (f : shape) : json -> bool :=
  match f with Compact => is_single_key | Explicit => has_nickname_and_token end.

(** The locals before the first source. *)
Definition empty_locals : locals := {| final_accounts := []; seen_tokens := ∅ |}.

(** The locals and the state after the bulk source, for typed entries. *)
Definition after_bulk (f : shape) (es : list entry) (l : locals) (s : state)
  : locals * state :=
  let ls := run_entries f es (l, emit (MsgShape f) (emit MsgBulkDetected s)) in
  (ls.1, emit (MsgBulkLoaded (length (final_accounts ls.1))) ls.2).

(** [seen_tokens] is the set of the tokens of [final_accounts], which
    are non-empty and pairwise distinct. *)
Definition consistent (l : locals) : Prop :=
  seen_tokens l = list_to_set (token <$> final_accounts l)
  /\ NoDup (token <$> final_accounts l)
  /\ Forall (fun a => token a <> []) (final_accounts l).



(** The order the accounts are sorted in. *)
Definition by_nickname (a b : account) : Prop := str_le (nickname a) (nickname b).

(** A statement that leaves [config.yaml] as it is, however it ends. *)
Definition keeps_file {A} (m : M A) : Prop :=
  forall s r s', m s = (r, s') -> config_yaml s' = config_yaml s.

(** [s] does not begin, respectively end, with white space; [s] is
    white space only. *)
Definition no_lead (s : str) : Prop :=
  match s with c :: _ => isspace c = false | [] => True end.

Definition no_trail (s : str) : Prop := no_lead (rev s).

Definition all_space (s : str) : Prop := Forall (fun c => isspace c = true) s.

(** What [main] does once the accounts are there. *)
Definition finish (d : disk) (accounts : list account) (s : state)
  : (exn + unit) * state :=
  let sorted := list_sort accounts in
  let cfg := {| log_level := u "info"; users := sorted |} in
  match d with
  | WriteOk => (inr tt, emit (MsgDone (length sorted)) (with_file (Dumped cfg) s))
  | OpenFails e => (inl (SystemExit 1), emit (ErrWrite (OSError e)) s)
  | DumpFails e =>
    (inl (SystemExit 1), emit (ErrWrite (OSError e)) (with_file Truncated s))
  end.

(** The state in which a run stops on a fatal error of the bulk source. *)
Definition bulk_failure (m : message) : state :=
  {| unnamed_account_counter := 0;
     stdout := [MsgStart; MsgBulkDetected; m];
     config_yaml := Untouched |}.

(** The nickname the standalone account is stored with: [final_nickname]
    in the source. *)
Definition final_nickname (env : environ) : str :=
  if str_truthy (standalone_nickname env) then standalone_nickname env
  else STANDALONE_NICKNAME.


Definition errors (s : state) : list message :=
  filter (fun m => is_error m = true) (stdout s).

(** The typed entries of the bulk source, none when the variable is
    unset or empty. *)
Definition source_entries (env : environ) : option (list entry) :=
  if str_truthy (default [] (SKLAND_ACCOUNTS_JSON env)) then
    snd <$> bulk_entries env
  else Some [].

(** The account of the standalone pair, when it is accepted after the
    entries [es]. *)
Definition standalone_accounts (env : environ) (es : list entry) : list account :=
  let tok := default [] (SKLAND_TOKEN env) in
  if str_truthy tok && bool_decide (tok ∉ distinct_tokens es)
  then [mkAccount (final_nickname env) tok]
  else [].

(** Two runs of a statement, from the states [s] and [t], that end alike:
    with the same result and, unless this is [NotModelled], with the same
    counter and after the same output. *)
Definition same_run {A} (x y : (exn + A) * state) (s t : state) : Prop :=
  x.1 = y.1
  /\ (x.1 <> inl NotModelled ->
      unnamed_account_counter x.2 = unnamed_account_counter y.2
      /\ exists out, stdout x.2 = stdout s ++ out /\ stdout y.2 = stdout t ++ out).

(** Two more texts for the examples: a token carried by two entries, and
    an array that mixes the shapes. *)
Definition more_texts : list (str * json) :=
  [ (q "[{'a':'t1'},{'b':'t1'},{'':'t2'}]",
     JArr [JObj [(u "a", JStr (u "t1"))]; JObj [(u "b", JStr (u "t1"))];
           JObj [([], JStr (u "t2"))]]);
    (q "[{'a':'t1'},{'nickname':'b','token':'t2'}]",
     JArr [JObj [(u "a", JStr (u "t1"))];
           JObj [(u "nickname", JStr (u "b")); (u "token", JStr (u "t2"))]]) ].

Definition more_loads : str -> decode_error + json :=
  loads_table (example_texts ++ more_texts).

(** A token carried by two entries, and a standalone pair beside them. *)
Definition repeated_token : environ :=
  {| SKLAND_ACCOUNTS_JSON := Some (q "[{'a':'t1'},{'b':'t1'},{'':'t2'}]");
     SKLAND_TOKEN := Some (u "tok");
     SKLAND_NICKNAME := Some (u " _END ") |}.

Definition mixed_shapes : environ :=
  {| SKLAND_ACCOUNTS_JSON := Some (q "[{'a':'t1'},{'nickname':'b','token':'t2'}]");
     SKLAND_TOKEN := Some (u "tok");
     SKLAND_NICKNAME := None |}.

(** A standalone pair whose nickname is the marker alone. *)
Definition marker_only : environ :=
  {| SKLAND_ACCOUNTS_JSON := None;
     SKLAND_TOKEN := Some (u "tok");
     SKLAND_NICKNAME := Some (u " _END ") |}.

(** A text whose second entry repeats the token of the first under a
    nickname that is an unpaired surrogate, written as an escape. *)
Definition surrogate_texts : list (str * json) :=
  [ (q "[{'a':'t'},{'\ud800':'t'}]",
     JArr [JObj [(u "a", JStr (u "t"))]; JObj [([55296%N], JStr (u "t"))]]) ].

Definition surrogate_loads : str -> decode_error + json :=
  loads_table (example_texts ++ surrogate_texts).

Definition surrogate_nickname : environ :=
  {| SKLAND_ACCOUNTS_JSON := Some (q "[{'a':'t'},{'\ud800':'t'}]");
     SKLAND_TOKEN := Some (u "t");
     SKLAND_NICKNAME := None |}.

(** ** Basic facts on the monad *)

Lemma bind_ret_l {A B} (a : A) (k : A -> M B) s : (mret a ≫= k) s = k a s.
Proof. reflexivity. Qed.

Lemma bind_inr {A B} (m : M A) (k : A -> M B) s a s' :
  m s = (inr a, s') -> (m ≫= k) s = k a s'.
Proof. unfold mbind, M_bind, bind. intros ->. reflexivity. Qed.

Lemma bind_inl {A B} (m : M A) (k : A -> M B) s e s' :
  m s = (inl e, s') -> (m ≫= k) s = (inl e, s').
Proof. unfold mbind, M_bind, bind. intros ->. reflexivity. Qed.

Lemma typed_truthy v t : typed v = Some t -> truthy v = str_truthy t.
Proof.
  destruct v; simpl; try (destruct (_ : bool) eqn:E; [discriminate|]);
    intros [= <-]; try reflexivity; try exact E.
  all: simpl in *; try rewrite E; try reflexivity.
Qed.

Lemma typed_JStr v t : typed v = Some t -> str_truthy t = true -> v = JStr t.
Proof.
  intros Hv Ht. pose proof (typed_truthy _ _ Hv) as Hb. rewrite Ht in Hb.
  destruct v; simpl in *; try rewrite Hb in Hv; try discriminate.
  congruence.
Qed.

Lemma typed_None v : typed v = None -> truthy v = true /\ forall s, v <> JStr s.
Proof.
  destruct v; simpl; try discriminate;
    destruct (_ : bool) eqn:E; try discriminate; intros _; split; congruence.
Qed.

Lemma as_str_None v s : (forall t, v <> JStr t) -> as_str v s = (inl NotModelled, s).
Proof. destruct v; try reflexivity. intros H. destruct (H s0 eq_refl). Qed.

Lemma uint_digits_range d :
  Forall (fun c => (48 <= c <= 57)%N) (uint_digits d).
Proof. induction d; simpl; constructor; (lia || done). Qed.

Lemma default_nickname_encodable n : encodable (default_nickname n) = true.
Proof.
  unfold encodable, default_nickname, str_of_nat.
  rewrite !existsb_app, orb_false_l.
  pose proof (uint_digits_range (Nat.to_uint n)) as Hr.
  induction Hr as [|c r Hc _ IH]; [done|]. simpl. rewrite <- IH.
  unfold is_surrogate. destruct (N.leb_spec 55296 c); [lia|done].
Qed.

(** On typed values a turn of a loop is [step_entry], unless its
    warning cannot be printed. *)
Lemma accept_or_skip_typed f rn tk n t l s :
  typed rn = Some n -> typed tk = Some t ->
  accept_or_skip f rn tk l s
  = if entry_prints (seen_tokens l) (mkEntry n t)
    then (inr (step_entry f (l, s) (mkEntry n t)).1,
          (step_entry f (l, s) (mkEntry n t)).2)
    else (inl UnicodeEncodeError, s).
Proof.
  intros Hn Ht. unfold accept_or_skip, step_entry, entry_prints, unnamed. simpl.
  rewrite (typed_truthy _ _ Hn), (typed_truthy _ _ Ht).
  destruct (str_truthy n) eqn:En; simpl.
  - rewrite (typed_JStr _ _ Hn En). simpl.
    destruct (str_truthy t) eqn:Et; simpl; [|reflexivity].
    rewrite (typed_JStr _ _ Ht Et). simpl.
    unfold mbind, M_bind, bind, print. simpl.
    case_bool_decide as Hin.
    + by rewrite bool_decide_eq_false_2.
    + rewrite bool_decide_eq_true_2 by first [done|by apply dec_stable]. simpl.
      by destruct (encodable n).
  - assert (n = []) as -> by (by destruct n).
    rewrite orb_true_r.
    unfold mbind, M_bind, bind, get_next_default_nickname, print. simpl.
    destruct (str_truthy t) eqn:Et; simpl; [|reflexivity].
    rewrite (typed_JStr _ _ Ht Et). simpl.
    case_bool_decide; [reflexivity|].
    by rewrite default_nickname_encodable.
Qed.

(** Outside the typed values a turn stops with [NotModelled]. *)
Lemma accept_or_skip_untyped f rn tk l s :
  typed rn = None \/ typed tk = None ->
  exists s', accept_or_skip f rn tk l s = (inl NotModelled, s').
Proof.
  intros H. unfold accept_or_skip.
  destruct (typed rn) as [n|] eqn:Hn.
  - destruct H as [|Ht]; [discriminate|].
    apply typed_None in Ht as [Ht Hs]. rewrite Ht.
    unfold mbind, M_bind, bind.
    destruct (_ s) as [[e|nick] s1] eqn:E.
    + destruct (truthy rn) eqn:Er.
      * assert (rn = JStr n) as ->.
        { apply typed_JStr; [done|]. by rewrite <- (typed_truthy _ _ Hn). }
        discriminate.
      * discriminate.
    + rewrite as_str_None by done. eauto.
  - apply typed_None in Hn as [Hn Hs]. rewrite Hn.
    unfold mbind, M_bind, bind. rewrite as_str_None by done. eauto.
Qed.

(** ** The loops on typed entries *)

Lemma bulk_loop_cons f item rest l s rn tk :
  item_fields f item = Some (rn, tk) ->
  bulk_loop f (item :: rest) l s
  = (accept_or_skip f rn tk l ≫= bulk_loop f rest) s.
Proof.
  destruct f, item as [| | | | | |members]; simpl; try discriminate.
  - destruct members as [|[k v] ?]; [discriminate|]. by intros [= <- <-].
  - by intros [= <- <-].
Qed.

Lemma shape_test_fields f item :
  shape_test f item = true -> is_Some (item_fields f item).
Proof.
  destruct f, item as [| | | | | |members]; simpl; try discriminate; [|eauto].
  destruct members as [|[k v] ?]; [|eauto].
  intros H. apply bool_decide_eq_true in H. discriminate.
Qed.

Lemma run_entries_cons f e es ls :
  run_entries f (e :: es) ls = run_entries f es (step_entry f ls e).
Proof. reflexivity. Qed.

Lemma step_entry_seen_after f l s e :
  seen_tokens (step_entry f (l, s) e).1 = seen_after (seen_tokens l) e.
Proof.
  unfold step_entry, seen_after.
  destruct (str_truthy (raw_token e)); [|set_solver].
  case_bool_decide as Hin; simpl; [done|]. set_solver.
Qed.

Lemma typed_entries_prefix f items es :
  typed_entries f items = Some es -> typed_prefix f items = es.
Proof.
  revert es. induction items as [|item rest IH]; intros es; simpl.
  - by intros [= <-].
  - destruct (typed_entry f item); [|discriminate].
    destruct (typed_entries f rest); [|discriminate].
    intros [= <-]. by rewrite (IH _ eq_refl).
Qed.

Lemma typed_entries_fields f items es :
  typed_entries f items = Some es ->
  Forall (fun item => is_Some (item_fields f item)) items.
Proof.
  revert es. induction items as [|item rest IH]; intros es; simpl.
  { intros _. constructor. }
  unfold typed_entry.
  destruct (item_fields f item) as [[rn tk]|] eqn:Hf; [|discriminate].
  destruct (typed rn), (typed tk); try discriminate.
  destruct (typed_entries f rest) as [es'|] eqn:E; [|discriminate]. intros _.
  constructor; [by exists (rn, tk)|by apply (IH es')].
Qed.

Lemma shape_fields f items :
  forallb (shape_test f) items = true ->
  Forall (fun item => is_Some (item_fields f item)) items.
Proof.
  induction items as [|item rest IH]; simpl; [done|].
  intros [Hi Hr]%andb_prop. constructor; [by apply shape_test_fields|auto].
Qed.


(** A loop goes through the typed entries until one cannot print its
    warning or an item has no typed reading, whichever comes first. *)
Lemma bulk_loop_gen f items l s :
  Forall (fun item => is_Some (item_fields f item)) items ->
  if prints_ok (seen_tokens l) (typed_prefix f items) then
    match typed_entries f items with
    | Some _ =>
      bulk_loop f items l s
      = (inr (run_entries f (typed_prefix f items) (l, s)).1,
         (run_entries f (typed_prefix f items) (l, s)).2)
    | None => exists s', bulk_loop f items l s = (inl NotModelled, s')
    end
  else
    bulk_loop f items l s
    = (inl UnicodeEncodeError,
       (run_entries f (printed_prefix (seen_tokens l) (typed_prefix f items))
          (l, s)).2).
Proof.
  intros Hall. revert l s.
  induction Hall as [|item rest [[rn tk] Hf] _ IH]; intros l s.
  { simpl. by destruct f. }
  rewrite (bulk_loop_cons f item rest l s rn tk Hf).
  cbn [typed_prefix typed_entries]. unfold typed_entry. rewrite Hf.
  destruct (typed rn) as [n|] eqn:Hn; [destruct (typed tk) as [t|] eqn:Ht|].
  - pose proof (accept_or_skip_typed f rn tk n t l s Hn Ht) as Ha.
    cbn [prints_ok printed_prefix].
    destruct (entry_prints (seen_tokens l) (mkEntry n t)); simpl.
    + rewrite (bind_inr _ _ _ _ _ Ha). specialize (IH (step_entry f (l, s) (mkEntry n t)).1
                    (step_entry f (l, s) (mkEntry n t)).2).
      rewrite step_entry_seen_after, <- surjective_pairing in IH.
      destruct (prints_ok _ _); [|by rewrite IH].
      by destruct (typed_entries f rest).
    + by rewrite (bind_inl _ _ _ _ _ Ha).
  - simpl. destruct (accept_or_skip_untyped f rn tk l s) as [s' Hs']; [by right|].
    rewrite (bind_inl _ _ _ _ _ Hs'). eauto.
  - simpl. destruct (accept_or_skip_untyped f rn tk l s) as [s' Hs']; [by left|].
    rewrite (bind_inl _ _ _ _ _ Hs'). eauto.
Qed.

Lemma bulk_loop_typed f items es l s :
  typed_entries f items = Some es ->
  prints_ok (seen_tokens l) es = true ->
  bulk_loop f items l s
  = (inr (run_entries f es (l, s)).1, (run_entries f es (l, s)).2).
Proof.
  intros Ht Hp.
  pose proof (bulk_loop_gen f items l s (typed_entries_fields _ _ _ Ht)) as H.
  by rewrite (typed_entries_prefix _ _ _ Ht), Hp, Ht in H.
Qed.

Lemma detect_shape_test items f :
  detect_shape items = Some f -> forallb (shape_test f) items = true.
Proof.
  unfold detect_shape.
  destruct (forallb is_single_key items) eqn:E1; [by intros [= <-]|].
  destruct (forallb has_nickname_and_token items) eqn:E2; [by intros [= <-]|].
  discriminate.
Qed.

(** The bulk source on an array of an accepted shape: the loop, then
    the count of the accounts or the clause of the exception. *)
Lemma load_bulk_array env l s items f :
  str_truthy (default [] (SKLAND_ACCOUNTS_JSON env)) = true ->
  json_loads (default [] (SKLAND_ACCOUNTS_JSON env)) = inr (JArr items) ->
  detect_shape items = Some f ->
  load_bulk env l s
  = match bulk_loop f items l (emit (MsgShape f) (emit MsgBulkDetected s)) with
    | (inr l', s') =>
      (inr l', emit (MsgBulkLoaded (length (final_accounts l'))) s')
    | (inl UnicodeEncodeError, s') =>
      (inl (SystemExit 1), emit (ErrBadFormat SurrogatesNotAllowed) s')
    | (inl (TypeError t), s') => (inl (SystemExit 1), emit (ErrBadFormat t) s')
    | (inl (JSONDecodeError d), s') =>
      (inl (SystemExit 1), emit (ErrInvalidJson d) s')
    | (inl e, s') => (inl e, s')
    end.
Proof.
  intros Ht Hv Hd. unfold load_bulk, parse_bulk. rewrite Ht.
  unfold mbind, M_bind, bind, try_except, mret, M_ret, ret. simpl.
  rewrite Hv. simpl. unfold detect_shape in Hd.
  destruct (forallb is_single_key items);
    [|destruct (forallb has_nickname_and_token items); [|discriminate]];
    injection Hd as <-; simpl;
    match goal with
    | |- context [?loop items l ?s0] =>
      destruct (loop items l s0) as [[[]|] ?]; reflexivity
    end.
Qed.

Lemma bulk_entries_inv env f es :
  bulk_entries env = Some (f, es) ->
  str_truthy (default [] (SKLAND_ACCOUNTS_JSON env)) = true
  /\ exists items,
       json_loads (default [] (SKLAND_ACCOUNTS_JSON env)) = inr (JArr items)
       /\ detect_shape items = Some f
       /\ typed_entries f items = Some es.
Proof.
  unfold bulk_entries.
  destruct (str_truthy _); [|discriminate].
  destruct (json_loads _) as [e|v]; [discriminate|].
  destruct v as [| | | | |items|]; try discriminate.
  destruct (detect_shape items) as [f'|] eqn:Hd; [|discriminate].
  destruct (typed_entries f' items) as [es'|] eqn:Ht; [|discriminate].
  intros [= <- <-]. eauto.
Qed.

(** The bulk source on typed entries, when every warning is printed. *)
Lemma load_bulk_typed env f es l s :
  bulk_entries env = Some (f, es) ->
  prints_ok (seen_tokens l) es = true ->
  load_bulk env l s = (inr (after_bulk f es l s).1, (after_bulk f es l s).2).
Proof.
  intros (Ht & items & Hv & Hd & Hes)%bulk_entries_inv Hp.
  rewrite (load_bulk_array env l s items f Ht Hv Hd).
  by rewrite (bulk_loop_typed _ _ _ _ _ Hes Hp).
Qed.

(** The bulk source on typed entries, when a warning cannot be printed:
    the program exits in the loop, on the first such entry. *)
Lemma load_bulk_unprintable env f es l s :
  bulk_entries env = Some (f, es) ->
  prints_ok (seen_tokens l) es = false ->
  load_bulk env l s
  = (inl (SystemExit 1),
     emit (ErrBadFormat SurrogatesNotAllowed)
       (run_entries f (printed_prefix (seen_tokens l) es)
          (l, emit (MsgShape f) (emit MsgBulkDetected s))).2).
Proof.
  intros (Ht & items & Hv & Hd & Hes)%bulk_entries_inv Hp.
  rewrite (load_bulk_array env l s items f Ht Hv Hd).
  pose proof (bulk_loop_gen f items l
                (emit (MsgShape f) (emit MsgBulkDetected s))
                (typed_entries_fields _ _ _ Hes)) as H.
  rewrite (typed_entries_prefix _ _ _ Hes), Hp in H. by rewrite H.
Qed.

(** ** What the loops keep and change *)

Lemma str_truthy_ne t : str_truthy t = true <-> t <> [].
Proof. destruct t; simpl; split; congruence. Qed.

Lemma consistent_empty : consistent {| final_accounts := []; seen_tokens := ∅ |}.
Proof. split; [done|]. split; constructor. Qed.

Lemma consistent_add l nick t :
  consistent l -> t <> [] -> t ∉ seen_tokens l ->
  consistent {| final_accounts := final_accounts l ++ [mkAccount nick t];
                seen_tokens := {[t]} ∪ seen_tokens l |}.
Proof.
  intros (Hs & Hn & Hf) Ht Hnot. unfold consistent. simpl.
  rewrite fmap_app. simpl. split; [|split].
  - rewrite list_to_set_app_L, Hs. simpl. set_solver.
  - apply NoDup_app. split; [done|]. split; [|apply NoDup_singleton].
    intros x Hx ->%list_elem_of_singleton. apply Hnot. rewrite Hs.
    by apply elem_of_list_to_set.
  - apply Forall_app. split; [done|]. by constructor.
Qed.

Lemma step_entry_consistent f l s e :
  consistent l -> consistent (step_entry f (l, s) e).1.
Proof.
  intros Hl. unfold step_entry.
  destruct (str_truthy (raw_token e)) eqn:Et; [|done].
  case_bool_decide as Hin; [|done]. simpl.
  apply consistent_add; [done| |done]. by apply str_truthy_ne.
Qed.

Lemma run_entries_consistent f es l s :
  consistent l -> consistent (run_entries f es (l, s)).1.
Proof.
  revert l s. induction es as [|e es IH]; intros l s Hl; [done|].
  rewrite run_entries_cons.
  pose proof (step_entry_consistent f l s e Hl) as H.
  destruct (step_entry f (l, s) e) as [l1 s1]. by apply IH.
Qed.

Lemma step_entry_counter f l s e :
  unnamed_account_counter (step_entry f (l, s) e).2
  = unnamed_account_counter s + (if unnamed e then 1 else 0).
Proof.
  unfold step_entry.
  destruct (unnamed e), (str_truthy (raw_token e)); try case_bool_decide;
    simpl; lia.
Qed.

Lemma step_entry_file f l s e :
  config_yaml (step_entry f (l, s) e).2 = config_yaml s.
Proof.
  unfold step_entry.
  destruct (unnamed e), (str_truthy (raw_token e)); try case_bool_decide;
    reflexivity.
Qed.

Lemma run_entries_counter f es l s :
  unnamed_account_counter (run_entries f es (l, s)).2
  = unnamed_account_counter s + length (filter (fun e => unnamed e = true) es).
Proof.
  revert l s. induction es as [|e es IH]; intros l s; [simpl; lia|].
  rewrite run_entries_cons.
  pose proof (step_entry_counter f l s e) as H.
  destruct (step_entry f (l, s) e) as [l1 s1]. rewrite IH. simpl in H.
  rewrite H, filter_cons.
  destruct (unnamed e); case_decide; try done; simpl; lia.
Qed.

Lemma run_entries_file f es l s :
  config_yaml (run_entries f es (l, s)).2 = config_yaml s.
Proof.
  revert l s. induction es as [|e es IH]; intros l s; [done|].
  rewrite run_entries_cons.
  pose proof (step_entry_file f l s e) as H.
  destruct (step_entry f (l, s) e) as [l1 s1]. by rewrite IH.
Qed.

Lemma step_entry_seen f l s e :
  seen_tokens (step_entry f (l, s) e).1
  = (if str_truthy (raw_token e) then {[raw_token e]} else ∅) ∪ seen_tokens l.
Proof.
  unfold step_entry.
  destruct (str_truthy (raw_token e)); [|set_solver].
  case_bool_decide as Hin; simpl; [done|]. set_solver.
Qed.

Lemma distinct_tokens_cons e es :
  distinct_tokens (e :: es)
  = (if str_truthy (raw_token e) then {[raw_token e]} else ∅) ∪ distinct_tokens es.
Proof.
  unfold distinct_tokens. simpl. rewrite filter_cons.
  destruct (str_truthy (raw_token e)) eqn:Et.
  - rewrite decide_True by (by apply str_truthy_ne). done.
  - rewrite decide_False; [set_solver|].
    intros H%str_truthy_ne. congruence.
Qed.

Lemma run_entries_seen f es l s :
  seen_tokens (run_entries f es (l, s)).1 = seen_tokens l ∪ distinct_tokens es.
Proof.
  revert l s. induction es as [|e es IH]; intros l s.
  - unfold distinct_tokens. simpl. set_solver.
  - rewrite run_entries_cons, distinct_tokens_cons.
    pose proof (step_entry_seen f l s e) as H.
    destruct (step_entry f (l, s) e) as [l1 s1]. rewrite IH. simpl in H.
    rewrite H. set_solver.
Qed.

Lemma consistent_length l :
  consistent l -> length (final_accounts l) = size (seen_tokens l).
Proof.
  intros (Hs & Hn & _). rewrite Hs, size_list_to_set by done.
  by rewrite length_fmap.
Qed.

(** ** The accounts of the bulk source, entry by entry *)

Lemma rank_cons e es i :
  rank (e :: es) (S i) = (if unnamed e then 1 else 0) + rank es i.
Proof.
  unfold rank. rewrite firstn_cons, filter_cons.
  destruct (unnamed e); case_decide; try done; simpl; lia.
Qed.

Lemma rank_0 e es : rank (e :: es) 0 = if unnamed e then 1 else 0.
Proof.
  unfold rank. change (take 1 (e :: es)) with [e]. rewrite filter_cons.
  destruct (unnamed e); case_decide; done.
Qed.

Lemma accepted_at_shift seen e es i x :
  accepted_at seen (e :: es) (S i) x
  = accepted_at ((if str_truthy (raw_token e) then {[raw_token e]} else ∅) ∪ seen)
                es i x.
Proof.
  unfold accepted_at. rewrite firstn_cons, fmap_cons.
  destruct (str_truthy (raw_token x)) eqn:Ex; [|done]. simpl.
  rewrite <- !bool_decide_and. apply bool_decide_ext.
  apply str_truthy_ne in Ex.
  destruct (str_truthy (raw_token e)) eqn:Ee.
  - set_solver.
  - assert (raw_token e = []) as ->; [by destruct (raw_token e)|]. set_solver.
Qed.

Lemma account_at_shift c seen e es i x :
  account_at c seen (e :: es) (S i) x
  = account_at (c + (if unnamed e then 1 else 0))
               ((if str_truthy (raw_token e) then {[raw_token e]} else ∅) ∪ seen)
               es i x.
Proof.
  unfold account_at. rewrite accepted_at_shift, rank_cons.
  by rewrite Nat.add_assoc.
Qed.

Lemma step_entry_accounts f l s e es :
  final_accounts (step_entry f (l, s) e).1
  = final_accounts l
    ++ option_list (account_at (unnamed_account_counter s) (seen_tokens l)
                               (e :: es) 0 e).
Proof.
  unfold step_entry, account_at, accepted_at. rewrite rank_0. simpl.
  destruct (str_truthy (raw_token e)); simpl; [|by rewrite app_nil_r].
  rewrite andb_true_r.
  case_bool_decide; simpl; [|by rewrite app_nil_r].
  destruct (unnamed e); [by rewrite Nat.add_1_r|done].
Qed.

Lemma run_entries_accounts f es l s :
  final_accounts (run_entries f es (l, s)).1
  = final_accounts l
    ++ omap id (imap (account_at (unnamed_account_counter s) (seen_tokens l) es) es).
Proof.
  revert l s. induction es as [|e es IH]; intros l s.
  - simpl. by rewrite app_nil_r.
  - rewrite run_entries_cons.
    pose proof (step_entry_accounts f l s e es) as Ha.
    pose proof (step_entry_seen f l s e) as Hs.
    pose proof (step_entry_counter f l s e) as Hc.
    destruct (step_entry f (l, s) e) as [l1 s1]. simpl in Ha, Hs, Hc.
    rewrite IH, Ha, Hs, Hc, <- app_assoc. f_equal.
    rewrite imap_cons. simpl.
    assert (imap (account_at (unnamed_account_counter s) (seen_tokens l)
                             (e :: es) ∘ S) es
            = imap (account_at (unnamed_account_counter s
                                + (if unnamed e then 1 else 0))
                      ((if str_truthy (raw_token e) then {[raw_token e]}
                        else ∅) ∪ seen_tokens l) es) es) as ->.
    { apply imap_ext. intros i x _. apply account_at_shift. }
    by destruct (account_at _ _ (e :: es) 0 e).
Qed.


Lemma rank_lt es i j e :
  i < j -> es !! j = Some e -> unnamed e = true -> rank es i < rank es j.
Proof.
  intros Hij Hj He. unfold rank.
  rewrite (take_S_r _ _ _ Hj), filter_app, length_app.
  rewrite filter_cons, filter_nil, decide_True by done. simpl.
  assert (take (S i) es = take (S i) (take j es)) as ->.
  { rewrite take_take. f_equal. lia. }
  rewrite <- (take_drop (S i) (take j es)) at 2.
  rewrite filter_app, length_app. lia.
Qed.

(** ** Statements that leave [config.yaml] alone *)

Lemma keeps_file_ret {A} (a : A) : keeps_file (mret a).
Proof. by intros s r s' [= _ <-]. Qed.

Lemma keeps_file_raise {A} e : keeps_file (@raise A e).
Proof. by intros s r s' [= _ <-]. Qed.

Lemma keeps_file_sys_exit {A} c : keeps_file (@sys_exit A c).
Proof. apply keeps_file_raise. Qed.

Lemma keeps_file_print m : keeps_file (print m).
Proof.
  intros s r s'. unfold print. by destruct (printable m); intros [= _ <-].
Qed.

Lemma keeps_file_set_counter n : keeps_file (set_counter n).
Proof. by intros s r s' [= _ <-]. Qed.

Lemma keeps_file_next : keeps_file get_next_default_nickname.
Proof. by intros s r s' [= _ <-]. Qed.

Lemma keeps_file_bind {A B} (m : M A) (k : A -> M B) :
  keeps_file m -> (forall a, keeps_file (k a)) -> keeps_file (m ≫= k).
Proof.
  intros Hm Hk s r s'. unfold mbind, M_bind, bind.
  destruct (m s) as [[e|a] s1] eqn:E.
  - intros [= _ <-]. by eapply Hm.
  - intros H. rewrite (Hk _ _ _ _ H). by eapply Hm.
Qed.

Lemma keeps_file_try {A} (m : M A) h :
  keeps_file m -> (forall e k, h e = Some k -> keeps_file k) ->
  keeps_file (try_except m h).
Proof.
  intros Hm Hh s r s'. unfold try_except.
  destruct (m s) as [[e|a] s1] eqn:E.
  - destruct (h e) as [k|] eqn:Ek.
    + intros H. rewrite (Hh _ _ Ek _ _ _ H). by eapply Hm.
    + intros [= _ <-]. by eapply Hm.
  - intros [= _ <-]. by eapply Hm.
Qed.

Lemma keeps_file_as_str v : keeps_file (as_str v).
Proof. destruct v; by intros ? ? ? [= _ <-]. Qed.

Create HintDb keeps discriminated.
#[local] Hint Resolve keeps_file_ret keeps_file_raise keeps_file_sys_exit
  keeps_file_print keeps_file_set_counter keeps_file_next keeps_file_as_str
  : keeps.

Ltac keeps_step :=
  first [ apply keeps_file_bind; [|intros ?]
        | progress auto with keeps
        | match goal with
          | |- keeps_file (if ?b then _ else _) => destruct b
          | |- keeps_file (match ?x with _ => _ end) => destruct x
          end ].

Lemma keeps_file_accept f rn tk l : keeps_file (accept_or_skip f rn tk l).
Proof. unfold accept_or_skip. repeat keeps_step. Qed.

Lemma keeps_file_compact items : forall l, keeps_file (compact_loop items l).
Proof.
  induction items as [|item rest IH]; intros l; simpl; [auto with keeps|].
  destruct item as [| | | | | |[|[k v] ?]]; auto with keeps.
  apply keeps_file_bind; [apply keeps_file_accept|auto].
Qed.

Lemma keeps_file_explicit items : forall l, keeps_file (explicit_loop items l).
Proof.
  induction items as [|item rest IH]; intros l; simpl; [auto with keeps|].
  destruct item; auto with keeps.
  apply keeps_file_bind; [apply keeps_file_accept|auto].
Qed.

#[local] Hint Resolve keeps_file_accept keeps_file_compact keeps_file_explicit
  : keeps.

Lemma keeps_file_load_bulk env l : keeps_file (load_bulk env l).
Proof.
  unfold load_bulk, parse_bulk. destruct (str_truthy _); [|auto with keeps].
  apply keeps_file_bind; [auto with keeps|intros _].
  apply keeps_file_try.
  - repeat keeps_step.
  - intros e k. destruct e; simpl; intros [= <-]; repeat keeps_step.
Qed.

Lemma keeps_file_load_standalone env l : keeps_file (load_standalone env l).
Proof. unfold load_standalone. repeat keeps_step. Qed.

Lemma keeps_file_merge_sources env : keeps_file (merge_sources env).
Proof.
  unfold merge_sources.
  apply keeps_file_bind; [apply keeps_file_print|intros _].
  apply keeps_file_bind; [apply keeps_file_set_counter|intros _].
  apply keeps_file_bind; [apply keeps_file_load_bulk|intros l1].
  apply keeps_file_load_standalone.
Qed.

Lemma keeps_file_load_and_merge env : keeps_file (load_and_merge_accounts env).
Proof.
  unfold load_and_merge_accounts.
  apply keeps_file_bind; [apply keeps_file_merge_sources|intros l2].
  repeat keeps_step.
Qed.

(** ** The two sources *)

Lemma bulk_entries_intro env items f es :
  str_truthy (default [] (SKLAND_ACCOUNTS_JSON env)) = true ->
  json_loads (default [] (SKLAND_ACCOUNTS_JSON env)) = inr (JArr items) ->
  detect_shape items = Some f ->
  typed_entries f items = Some es ->
  bulk_entries env = Some (f, es).
Proof. unfold bulk_entries. by intros -> -> -> ->. Qed.

(** The bulk source is absent, or stops the program before the loops
    with an error message, or is an array of an accepted shape. *)
Lemma load_bulk_cases env :
  str_truthy (default [] (SKLAND_ACCOUNTS_JSON env)) = false
  \/ (exists m,
        is_error m = true
        /\ bulk_entries env = None
        /\ forall l s,
             load_bulk env l s
             = (inl (SystemExit 1), emit m (emit MsgBulkDetected s)))
  \/ (str_truthy (default [] (SKLAND_ACCOUNTS_JSON env)) = true
      /\ exists items f,
           json_loads (default [] (SKLAND_ACCOUNTS_JSON env)) = inr (JArr items)
           /\ detect_shape items = Some f).
Proof.
  unfold bulk_entries, load_bulk, parse_bulk.
  destruct (str_truthy _); [|by left]. right.
  unfold mbind, M_bind, bind, try_except, mret, M_ret, ret. simpl.
  destruct (json_loads _) as [d|v].
  { left. by exists (ErrInvalidJson d). }
  destruct v as [| | | | |items|];
    try (left; by exists (ErrBadFormat RootNotArray)).
  destruct (detect_shape items) as [f|] eqn:Hd; [right; eauto|].
  left. exists (ErrBadFormat NeitherShape). split; [done|]. split; [done|].
  intros l s. simpl. unfold detect_shape in Hd.
  destruct (forallb is_single_key items); [discriminate|].
  by destruct (forallb has_nickname_and_token items).
Qed.

(** A bulk source that is read without an exception is absent, or an
    array of typed entries. *)
Lemma load_bulk_inr env l s l' s' :
  load_bulk env l s = (inr l', s') ->
  (str_truthy (default [] (SKLAND_ACCOUNTS_JSON env)) = false /\ l' = l /\ s' = s)
  \/ (exists f es, bulk_entries env = Some (f, es) /\ after_bulk f es l s = (l', s')).
Proof.
  destruct (load_bulk_cases env)
    as [Ht|[(m & _ & _ & Hm)|(Ht & items & f & Hv & Hd)]].
  - unfold load_bulk. rewrite Ht. intros [= <- <-]. by left.
  - by rewrite Hm.
  - rewrite (load_bulk_array env l s items f Ht Hv Hd).
    pose proof (bulk_loop_gen f items l
                  (emit (MsgShape f) (emit MsgBulkDetected s))
                  (shape_fields _ _ (detect_shape_test _ _ Hd))) as H.
    destruct (prints_ok _ _); [|by rewrite H].
    destruct (typed_entries f items) as [es|] eqn:Hes.
    + rewrite H, (typed_entries_prefix _ _ _ Hes). intros [= <- <-]. right.
      exists f, es. split; [by apply (bulk_entries_intro env items)|done].
    + destruct H as [s1 ->]. discriminate.
Qed.

Lemma load_standalone_eq env l s :
  load_standalone env l s
  = let tok := default [] (SKLAND_TOKEN env) in
    let nick := standalone_nickname env in
    if str_truthy tok then
      if bool_decide (tok ∉ seen_tokens l) then
        (inr {| final_accounts :=
                  final_accounts l
                  ++ [mkAccount (if str_truthy nick then nick
                                 else STANDALONE_NICKNAME) tok];
                seen_tokens := {[tok]} ∪ seen_tokens l |},
         emit MsgStandaloneLoaded (emit MsgStandaloneDetected s))
      else (inr l, emit WarnStandaloneDuplicate (emit MsgStandaloneDetected s))
    else (inr l, s).
Proof.
  unfold load_standalone. simpl.
  destruct (str_truthy _); [|done]. by case_bool_decide.
Qed.

Lemma load_standalone_consistent env l s l' s' :
  consistent l -> load_standalone env l s = (inr l', s') -> consistent l'.
Proof.
  intros Hl. rewrite load_standalone_eq. simpl.
  destruct (str_truthy _) eqn:Et; [|by intros [= <- _]].
  case_bool_decide; intros [= <- _]; [|done].
  apply consistent_add; [done| |done]. by apply str_truthy_ne.
Qed.

Lemma after_bulk_consistent f es l s :
  consistent l -> consistent (after_bulk f es l s).1.
Proof. intros Hl. unfold after_bulk. simpl. by apply run_entries_consistent. Qed.

Lemma merge_sources_eq env s :
  merge_sources env s
  = (load_bulk env {| final_accounts := []; seen_tokens := ∅ |}
       ≫= load_standalone env) (with_counter 0 (emit MsgStart s)).
Proof. reflexivity. Qed.

Lemma merge_sources_consistent env s l2 s2 :
  merge_sources env s = (inr l2, s2) -> consistent l2.
Proof.
  rewrite merge_sources_eq. unfold mbind, M_bind, bind.
  destruct (load_bulk _ _ _) as [[e|l1] s1] eqn:Hb; [discriminate|].
  intros Hs. eapply load_standalone_consistent; [|exact Hs].
  apply load_bulk_inr in Hb as [(_ & -> & _)|(f & es & _ & Ha)].
  - apply consistent_empty.
  - change l1 with (l1, s1).1. rewrite <- Ha.
    apply after_bulk_consistent, consistent_empty.
Qed.

(** ** The order on strings and the sort *)

Lemma str_lt_irrefl s : str_lt s s = false.
Proof.
  induction s as [|c r IH]; [done|]. simpl.
  by rewrite N.ltb_irrefl.
Qed.

Lemma str_lt_trans a b c :
  str_lt a b = true -> str_lt b c = true -> str_lt a c = true.
Proof.
  revert b c. induction a as [|x a IH]; intros [|y b] [|z c]; simpl; try done.
  destruct (N.ltb_spec x y), (N.ltb_spec y x), (N.ltb_spec y z),
    (N.ltb_spec z y), (N.ltb_spec x z), (N.ltb_spec z x);
    try done; try lia.
  apply IH.
Qed.

Lemma str_lt_total a b : str_lt a b = false -> str_lt b a = false -> a = b.
Proof.
  revert b. induction a as [|x a IH]; intros [|y b]; simpl; try done.
  destruct (N.ltb_spec x y), (N.ltb_spec y x); try done; try lia.
  intros H1 H2. f_equal; [lia|by apply IH].
Qed.

Lemma str_le_refl a : str_le a a.
Proof. apply str_lt_irrefl. Qed.

Lemma str_lt_le a b : str_lt a b = true -> str_le a b.
Proof.
  intros H. unfold str_le. destruct (str_lt b a) eqn:E; [|done].
  by rewrite <- (str_lt_irrefl a), <- (str_lt_trans _ _ _ H E).
Qed.

Lemma str_le_trans a b c : str_le a b -> str_le b c -> str_le a c.
Proof.
  unfold str_le. intros Hab Hbc. destruct (str_lt c a) eqn:Hca; [|done].
  destruct (str_lt a b) eqn:Hlt.
  - by rewrite <- Hbc, <- (str_lt_trans _ _ _ Hca Hlt).
  - rewrite (str_lt_total _ _ Hlt Hab) in Hca. congruence.
Qed.

Lemma str_le_total a b : str_le a b \/ str_le b a.
Proof.
  unfold str_le. destruct (str_lt b a) eqn:E; [right|by left].
  by apply str_lt_le.
Qed.

Lemma str_le_antisym a b : str_le a b -> str_le b a -> a = b.
Proof. unfold str_le. intros H1 H2. by apply str_lt_total. Qed.

Lemma insert_sorted_perm x l : insert_sorted x l ≡ₚ x :: l.
Proof.
  induction l as [|y l IH]; simpl; [done|].
  destruct (str_lt _ _); [|done]. rewrite IH. apply Permutation_swap.
Qed.

Lemma list_sort_perm l : list_sort l ≡ₚ l.
Proof.
  induction l as [|x l IH]; simpl; [done|].
  unfold list_sort in *. simpl. by rewrite insert_sorted_perm, IH.
Qed.

Lemma insert_sorted_sorted x l :
  StronglySorted by_nickname l -> StronglySorted by_nickname (insert_sorted x l).
Proof.
  induction 1 as [|y l Hl IH Hy]; simpl; [repeat constructor|].
  unfold sort_key. destruct (str_lt (nickname y) (nickname x)) eqn:E.
  - constructor; [done|]. rewrite insert_sorted_perm.
    constructor; [by apply str_lt_le|done].
  - constructor; [by constructor|]. constructor; [exact E|].
    eapply Forall_impl; [exact Hy|]. intros z Hz.
    eapply str_le_trans; [exact E|exact Hz].
Qed.

Lemma list_sort_sorted l : StronglySorted by_nickname (list_sort l).
Proof.
  induction l as [|x l IH]; [constructor|]. by apply insert_sorted_sorted.
Qed.

Lemma insert_sorted_stable n x l :
  filter (fun a => nickname a = n) (insert_sorted x l)
  = filter (fun a => nickname a = n) (x :: l).
Proof.
  induction l as [|y l IH]; simpl; [done|].
  unfold sort_key. destruct (str_lt (nickname y) (nickname x)) eqn:E; [|done].
  rewrite filter_cons, IH, !filter_cons.
  repeat case_decide; try done. subst.
  rewrite <- H0, str_lt_irrefl in E. done.
Qed.

Lemma list_sort_stable n l :
  filter (fun a => nickname a = n) (list_sort l)
  = filter (fun a => nickname a = n) l.
Proof.
  induction l as [|x l IH]; [done|]. unfold list_sort in *. simpl.
  by rewrite insert_sorted_stable, !filter_cons, IH.
Qed.

(** ** [strip], [endswith] and [remove_marker] *)

Lemma lstrip_space ws s : all_space ws -> lstrip (ws ++ s) = lstrip s.
Proof. induction 1 as [|c ws Hc _ IH]; simpl; [done|]. by rewrite Hc. Qed.

Lemma lstrip_no_lead s : no_lead s -> lstrip s = s.
Proof. destruct s as [|c r]; simpl; [done|]. by intros ->. Qed.

Lemma rstrip_space s ws : all_space ws -> rstrip (s ++ ws) = rstrip s.
Proof.
  intros H. unfold rstrip. rewrite rev_app_distr, lstrip_space; [done|].
  by apply List.Forall_rev.
Qed.

Lemma rstrip_no_trail s : no_trail s -> rstrip s = s.
Proof.
  intros H. unfold rstrip. rewrite lstrip_no_lead by done. apply rev_involutive.
Qed.

Lemma strip_core ws1 core ws2 :
  all_space ws1 -> all_space ws2 -> no_lead core -> no_trail core ->
  strip (ws1 ++ core ++ ws2) = core.
Proof.
  intros H1 H2 Hl Ht. unfold strip. rewrite lstrip_space by done.
  destruct core as [|c r].
  - simpl. rewrite <- (app_nil_r ws2), lstrip_space by done. done.
  - rewrite lstrip_no_lead by done. rewrite rstrip_space by done.
    by apply rstrip_no_trail.
Qed.

Lemma endswith_app p suffix : endswith (p ++ suffix) suffix = true.
Proof.
  unfold endswith. rewrite length_app.
  rewrite bool_decide_eq_true_2 by lia. simpl.
  apply bool_decide_eq_true_2.
  replace (length p + length suffix - length suffix) with (length p) by lia.
  by rewrite drop_app_length.
Qed.

Lemma endswith_inv s suffix :
  endswith s suffix = true -> s = slice_to_neg (length suffix) s ++ suffix.
Proof.
  unfold endswith, slice_to_neg.
  intros [_ H%bool_decide_eq_true]%andb_prop.
  rewrite <- H at 2. by rewrite take_drop.
Qed.

Lemma marker_nonempty p : str_truthy (p ++ MARKER) = true.
Proof. by destruct p. Qed.

Lemma remove_marker_app p : remove_marker (p ++ MARKER) = p.
Proof.
  unfold remove_marker. rewrite marker_nonempty, endswith_app.
  unfold slice_to_neg. rewrite length_app.
  replace (length p + length MARKER - length MARKER) with (length p) by lia.
  by rewrite take_app_length.
Qed.

Lemma remove_marker_other s : endswith s MARKER = false -> remove_marker s = s.
Proof. unfold remove_marker. intros ->. by rewrite andb_false_r. Qed.

(** Distinct numbers give distinct default nicknames. *)
Lemma uint_digits_inj d1 d2 : uint_digits d1 = uint_digits d2 -> d1 = d2.
Proof.
  revert d2. induction d1; intros []; simpl; try discriminate; try done;
    intros [= H]; f_equal; auto.
Qed.

Lemma default_nickname_inj n m : default_nickname n = default_nickname m -> n = m.
Proof.
  unfold default_nickname, str_of_nat. intros H.
  do 2 apply app_inv_head in H.
  by apply DecimalNat.Unsigned.to_uint_inj, uint_digits_inj.
Qed.

Lemma no_lead_marker body : no_lead body -> no_lead (body ++ MARKER).
Proof. by destruct body. Qed.

Lemma no_trail_marker body : no_trail (body ++ MARKER).
Proof. unfold no_trail. by rewrite rev_app_distr. Qed.

(** ** [load_and_merge_accounts] and [main] through their steps *)

Lemma load_and_merge_eq env s :
  load_and_merge_accounts env s
  = match merge_sources env s with
    | (inl e, s2) => (inl e, s2)
    | (inr l2, s2) =>
      match final_accounts l2 with
      | [] => (inl (SystemExit 1), emit ErrNoAccounts s2)
      | _ => (inr (final_accounts l2), s2)
      end
    end.
Proof.
  unfold load_and_merge_accounts, mbind, M_bind, bind.
  destruct (merge_sources env s) as [[e|l2] s2]; [done|].
  by destruct (final_accounts l2).
Qed.

Lemma main_eq env d s :
  main env d s
  = match load_and_merge_accounts env s with
    | (inl e, s1) => (inl e, s1)
    | (inr accounts, s1) => finish d accounts s1
    end.
Proof.
  unfold main, mbind, M_bind, bind.
  destruct (load_and_merge_accounts env s) as [[e|accounts] s1]; [done|].
  by destruct d.
Qed.

Lemma load_and_merge_inr env s accounts s' :
  load_and_merge_accounts env s = (inr accounts, s') ->
  exists l2, merge_sources env s = (inr l2, s')
             /\ accounts = final_accounts l2 /\ accounts <> [].
Proof.
  rewrite load_and_merge_eq.
  destruct (merge_sources env s) as [[e|l2] s2]; [done|].
  destruct (final_accounts l2) eqn:E; [done|].
  intros [= <- <-]. exists l2. by rewrite E.
Qed.

(** A run that ends normally has read its accounts and dumped them sorted. *)
Lemma run_inr env d s' :
  run env d = (inr tt, s') ->
  exists accounts s1,
    load_and_merge_accounts env initial_state = (inr accounts, s1)
    /\ d = WriteOk
    /\ config_yaml s'
       = Dumped {| log_level := u "info"; users := list_sort accounts |}.
Proof.
  unfold run. rewrite main_eq.
  destruct (load_and_merge_accounts env initial_state) as [[e|accounts] s1];
    [done|].
  destruct d; [|done..]. intros [= <-]. by exists accounts, s1.
Qed.

(** ** The properties of the program *)

(** C8.  The document a successful run dumps has [log_level] equal to
    the constant "info", and its [users] have non-empty, pairwise distinct
    tokens. *)
Theorem output_document_invariant env d s' :
  run env d = (inr tt, s') ->
  exists cfg,
    config_yaml s' = Dumped cfg
    /\ log_level cfg = u "info"
    /\ Forall (fun a => token a <> []) (users cfg)
    /\ NoDup (token <$> users cfg).
Proof.
  intros (accounts & s1 & Hload & _ & Hfile)%run_inr.
  apply load_and_merge_inr in Hload as (l2 & Hm & -> & _).
  apply merge_sources_consistent in Hm as (_ & Hnd & Hne).
  eexists. split; [exact Hfile|]. simpl. split; [done|].
  split; by rewrite list_sort_perm.
Qed.

(** C6.  The [users] of a successful run are the accepted accounts
    sorted by nickname, ascending in the order of strings; accounts with
    the same nickname keep the order in which they were accepted. *)
Theorem users_sorted_stable env d s' :
  run env d = (inr tt, s') ->
  exists cfg accounts s1,
    load_and_merge_accounts env initial_state = (inr accounts, s1)
    /\ config_yaml s' = Dumped cfg
    /\ users cfg ≡ₚ accounts
    /\ StronglySorted by_nickname (users cfg)
    /\ forall n, filter (fun a => nickname a = n) (users cfg)
                 = filter (fun a => nickname a = n) accounts.
Proof.
  intros (accounts & s1 & Hload & _ & Hfile)%run_inr.
  eexists _, accounts, s1. split; [done|]. split; [exact Hfile|]. simpl.
  split; [apply list_sort_perm|]. split; [apply list_sort_sorted|].
  intros n. apply list_sort_stable.
Qed.

(** C4.  When both sources are processed and no account is accepted,
    the run prints the fatal error and exits with status 1; the file
    [config.yaml] is not opened, whatever the disk would have answered. *)
Theorem no_accounts_is_fatal env d l2 s2 :
  merge_sources env initial_state = (inr l2, s2) ->
  final_accounts l2 = [] ->
  run env d = (inl (SystemExit 1), emit ErrNoAccounts s2)
  /\ exit_status (run env d).1 = Some 1%Z
  /\ config_yaml (run env d).2 = Untouched
  /\ last (stdout (run env d).2) = Some ErrNoAccounts.
Proof.
  intros Hm Hnil.
  assert (run env d = (inl (SystemExit 1), emit ErrNoAccounts s2)) as ->.
  { unfold run. by rewrite main_eq, load_and_merge_eq, Hm, Hnil. }
  simpl. split; [done|]. split; [done|].
  split; [by rewrite (keeps_file_merge_sources _ _ _ _ Hm)|].
  by rewrite last_snoc.
Qed.

Lemma run_bulk_failure env d e s1 :
  load_bulk env {| final_accounts := []; seen_tokens := ∅ |}
    (with_counter 0 (emit MsgStart initial_state)) = (inl e, s1) ->
  run env d = (inl e, s1).
Proof.
  intros H. unfold run.
  rewrite main_eq, load_and_merge_eq, merge_sources_eq.
  by rewrite (bind_inl _ _ _ _ _ H).
Qed.

(** C5.  A bulk text that is not JSON, whose root is not an array, or
    whose elements pass neither shape test ends the run with exit status
    1 in the three cases; for a text that is not JSON the last message
    carries the decoder's error. *)
Theorem bad_bulk_is_fatal env d text :
  SKLAND_ACCOUNTS_JSON env = Some text ->
  text <> [] ->
  (forall e, json_loads text = inl e ->
     run env d = (inl (SystemExit 1), bulk_failure (ErrInvalidJson e)))
  /\ (forall v, json_loads text = inr v -> (forall items, v <> JArr items) ->
       run env d = (inl (SystemExit 1), bulk_failure (ErrBadFormat RootNotArray)))
  /\ (forall items, json_loads text = inr (JArr items) ->
       detect_shape items = None ->
       run env d = (inl (SystemExit 1), bulk_failure (ErrBadFormat NeitherShape))).
Proof.
  intros Henv Htext%str_truthy_ne.
  split; [|split].
  - intros e He. apply run_bulk_failure.
    unfold load_bulk, parse_bulk. rewrite Henv. simpl. rewrite Htext.
    unfold mbind, M_bind, bind, try_except. simpl. by rewrite He.
  - intros v Hv Hna. apply run_bulk_failure.
    unfold load_bulk, parse_bulk. rewrite Henv. simpl. rewrite Htext.
    unfold mbind, M_bind, bind, try_except. simpl. rewrite Hv. simpl.
    destruct v; try done. by destruct (Hna items).
  - intros items Hv Hd. apply run_bulk_failure.
    unfold load_bulk, parse_bulk. rewrite Henv. simpl. rewrite Htext.
    unfold mbind, M_bind, bind, try_except. simpl. rewrite Hv. simpl.
    unfold detect_shape in Hd.
    destruct (forallb is_single_key items); [done|].
    by destruct (forallb has_nickname_and_token items).
Qed.

(** C9.  The empty array passes the first shape test: it is read as
    the compact shape, raises no error and adds no account; when the
    standalone token is absent the run then stops on the error for zero
    accounts, and on no other error. *)
Theorem empty_array_is_compact env d text :
  SKLAND_ACCOUNTS_JSON env = Some text ->
  text <> [] ->
  json_loads text = inr (JArr []) ->
  detect_shape [] = Some Compact
  /\ (forall l s,
       load_bulk env l s
       = (inr l, emit (MsgBulkLoaded (length (final_accounts l)))
                   (emit (MsgShape Compact) (emit MsgBulkDetected s))))
  /\ (default [] (SKLAND_TOKEN env) = [] ->
      run env d
      = (inl (SystemExit 1),
         {| unnamed_account_counter := 0;
            stdout := [MsgStart; MsgBulkDetected; MsgShape Compact;
                       MsgBulkLoaded 0; ErrNoAccounts];
            config_yaml := Untouched |})).
Proof.
  intros Henv Htext%str_truthy_ne Hv.
  assert (forall l s,
    load_bulk env l s
    = (inr l, emit (MsgBulkLoaded (length (final_accounts l)))
                (emit (MsgShape Compact) (emit MsgBulkDetected s)))) as Hb.
  { intros l s. unfold load_bulk, parse_bulk. rewrite Henv. simpl. rewrite Htext.
    unfold mbind, M_bind, bind, try_except. simpl. by rewrite Hv. }
  split; [done|]. split; [exact Hb|]. intros Htok.
  unfold run. rewrite main_eq, load_and_merge_eq, merge_sources_eq.
  rewrite (bind_inr _ _ _ _ _ (Hb _ _)), load_standalone_eq. simpl.
  by rewrite Htok.
Qed.

(** C10.  [remove_marker] takes one trailing "_END" off and no more: a
    string that ends with the marker loses its last four code points, so
    a string that ends with the marker twice still ends with it; any
    other string is returned as it is. *)
Theorem remove_marker_once :
  MARKER = u "_END"
  /\ (forall p, remove_marker (p ++ MARKER) = p)
  /\ (forall s, endswith s MARKER = true ->
       remove_marker s = take (length s - 4) s
       /\ s = remove_marker s ++ MARKER)
  /\ (forall p, remove_marker (p ++ MARKER ++ MARKER) = p ++ MARKER
              /\ endswith (remove_marker (p ++ MARKER ++ MARKER)) MARKER = true)
  /\ (forall s, endswith s MARKER = false -> remove_marker s = s).
Proof.
  split; [done|]. split; [apply remove_marker_app|]. split; [|split].
  - intros s Hs. pose proof (endswith_inv _ _ Hs) as Hinv.
    assert (remove_marker s = slice_to_neg (length MARKER) s) as ->.
    { unfold remove_marker. rewrite Hs, andb_true_r.
      rewrite Hinv at 1. by rewrite marker_nonempty. }
    split; [reflexivity|exact Hinv].
  - intros p. rewrite app_assoc, remove_marker_app. split; [done|].
    apply endswith_app.
  - apply remove_marker_other.
Qed.

(** Every string is white space, its stripped part, white space. *)
Lemma lstrip_decompose s :
  exists ws, s = ws ++ lstrip s /\ all_space ws /\ no_lead (lstrip s).
Proof.
  induction s as [|c r (ws & Hr & Hws & Hl)].
  { exists []. repeat split. constructor. }
  simpl. destruct (isspace c) eqn:Ec.
  - exists (c :: ws). split; [simpl; by rewrite <- Hr|].
    split; [by constructor|done].
  - exists []. repeat split; [constructor|exact Ec].
Qed.

Lemma rstrip_decompose s :
  exists ws, s = rstrip s ++ ws /\ all_space ws /\ no_trail (rstrip s).
Proof.
  destruct (lstrip_decompose (rev s)) as (ws & Hs & Hws & Hl).
  exists (rev ws). unfold rstrip, no_trail. rewrite rev_involutive.
  split; [|split; [by apply List.Forall_rev|done]].
  by rewrite <- rev_app_distr, <- Hs, rev_involutive.
Qed.

Lemma strip_decompose s :
  exists ws1 ws2,
    s = ws1 ++ strip s ++ ws2
    /\ all_space ws1 /\ all_space ws2
    /\ no_lead (strip s) /\ no_trail (strip s).
Proof.
  destruct (lstrip_decompose s) as (ws1 & H1 & Hws1 & Hl).
  destruct (rstrip_decompose (lstrip s)) as (ws2 & H2 & Hws2 & Ht).
  exists ws1, ws2. unfold strip. rewrite <- H2. repeat split; try done.
  rewrite H2 in Hl. by destruct (rstrip (lstrip s)).
Qed.

(** C7.  The standalone nickname is split into white space, a core
    without white space at its ends, and white space; the marker is then
    looked for at the end of the core.  So a nickname made of a body, the
    marker and trailing white space is stored as the body. *)
Theorem standalone_nickname_trim_then_marker env raw :
  SKLAND_NICKNAME env = Some raw ->
  (exists ws1 ws2,
     raw = ws1 ++ strip raw ++ ws2
     /\ all_space ws1 /\ all_space ws2
     /\ no_lead (strip raw) /\ no_trail (strip raw))
  /\ standalone_nickname env = remove_marker (strip raw)
  /\ (forall ws1 body ws2,
       raw = ws1 ++ body ++ MARKER ++ ws2 ->
       all_space ws1 -> all_space ws2 -> no_lead body ->
       standalone_nickname env = body)
  /\ (forall tok l s,
       SKLAND_TOKEN env = Some tok -> tok <> [] -> tok ∉ seen_tokens l ->
       standalone_nickname env <> [] ->
       exists l' s',
         load_standalone env l s = (inr l', s')
         /\ final_accounts l'
            = final_accounts l ++ [mkAccount (standalone_nickname env) tok]).
Proof.
  intros Hraw. split; [apply strip_decompose|].
  assert (standalone_nickname env = remove_marker (strip raw)) as Hn.
  { unfold standalone_nickname. by rewrite Hraw. }
  split; [exact Hn|]. split.
  - intros ws1 body ws2 -> H1 H2 Hb. rewrite Hn.
    rewrite (app_assoc body), strip_core;
      [apply remove_marker_app|done|done| |].
    + by apply no_lead_marker.
    + apply no_trail_marker.
  - intros tok l s Htok Hne%str_truthy_ne Hnot Hnick%str_truthy_ne.
    rewrite load_standalone_eq, Htok. simpl. rewrite Hne, Hnick.
    rewrite bool_decide_eq_true_2 by done. eauto.
Qed.

(** ** Runs whose bulk source is an array of typed entries *)

Lemma after_bulk_facts f es s :
  unnamed_account_counter s = 0 ->
  final_accounts (after_bulk f es empty_locals s).1 = bulk_accounts es
  /\ seen_tokens (after_bulk f es empty_locals s).1 = distinct_tokens es
  /\ consistent (after_bulk f es empty_locals s).1
  /\ unnamed_account_counter (after_bulk f es empty_locals s).2
     = length (filter (fun e => unnamed e = true) es)
  /\ config_yaml (after_bulk f es empty_locals s).2 = config_yaml s.
Proof.
  intros Hc. unfold after_bulk. simpl. split; [|split; [|split; [|split]]].
  - rewrite run_entries_accounts. simpl. by rewrite Hc.
  - rewrite run_entries_seen. simpl. set_solver.
  - apply run_entries_consistent, consistent_empty.
  - rewrite run_entries_counter. simpl. by rewrite Hc.
  - by rewrite run_entries_file.
Qed.

Lemma merge_sources_typed env f es s :
  bulk_entries env = Some (f, es) ->
  prints_ok ∅ es = true ->
  merge_sources env s
  = load_standalone env
      (after_bulk f es empty_locals (with_counter 0 (emit MsgStart s))).1
      (after_bulk f es empty_locals (with_counter 0 (emit MsgStart s))).2.
Proof.
  intros Hb Hp. rewrite merge_sources_eq.
  by rewrite (bind_inr _ _ _ _ _
                (load_bulk_typed env f es empty_locals _ Hb Hp)).
Qed.

(** When a warning of the loop cannot be printed the sources stop
    there: the standalone pair is not read. *)
Lemma merge_sources_unprintable env f es s :
  bulk_entries env = Some (f, es) ->
  prints_ok ∅ es = false ->
  merge_sources env s
  = (inl (SystemExit 1),
     emit (ErrBadFormat SurrogatesNotAllowed)
       (run_entries f (printed_prefix ∅ es)
          (empty_locals,
           emit (MsgShape f)
             (emit MsgBulkDetected (with_counter 0 (emit MsgStart s))))).2).
Proof.
  intros Hb Hp. rewrite merge_sources_eq.
  by rewrite (bind_inl _ _ _ _ _
                (load_bulk_unprintable env f es empty_locals _ Hb Hp)).
Qed.

Lemma merge_sources_prints env f es s l2 s2 :
  bulk_entries env = Some (f, es) ->
  merge_sources env s = (inr l2, s2) ->
  prints_ok ∅ es = true.
Proof.
  intros Hb Hm. destruct (prints_ok ∅ es) eqn:Hp; [done|].
  by rewrite (merge_sources_unprintable _ _ _ _ Hb Hp) in Hm.
Qed.












(** ** Further properties: how a run ends *)

Lemma step_entry_frame f l s t e :
  unnamed_account_counter s = unnamed_account_counter t ->
  exists ws,
    (step_entry f (l, s) e).1 = (step_entry f (l, t) e).1
    /\ unnamed_account_counter (step_entry f (l, s) e).2
       = unnamed_account_counter (step_entry f (l, t) e).2
    /\ stdout (step_entry f (l, s) e).2 = stdout s ++ ws
    /\ stdout (step_entry f (l, t) e).2 = stdout t ++ ws
    /\ Forall (fun m => is_warning m = true) ws
    /\ length ws + length (final_accounts (step_entry f (l, s) e).1)
       = 1 + length (final_accounts l).
Proof.
  intros Hc. unfold step_entry. rewrite Hc.
  destruct (unnamed e), (str_truthy (raw_token e)); try case_bool_decide; simpl;
    [exists []|eexists [_]|eexists [_]|exists []|eexists [_]|eexists [_]];
    simpl; rewrite ?app_nil_r, ?length_app; simpl;
    repeat split; try done; try lia; by repeat constructor.
Qed.

Lemma run_entries_frame f es l s t :
  unnamed_account_counter s = unnamed_account_counter t ->
  exists ws,
    (run_entries f es (l, s)).1 = (run_entries f es (l, t)).1
    /\ unnamed_account_counter (run_entries f es (l, s)).2
       = unnamed_account_counter (run_entries f es (l, t)).2
    /\ stdout (run_entries f es (l, s)).2 = stdout s ++ ws
    /\ stdout (run_entries f es (l, t)).2 = stdout t ++ ws
    /\ Forall (fun m => is_warning m = true) ws
    /\ length ws + length (final_accounts (run_entries f es (l, s)).1)
       = length es + length (final_accounts l).
Proof.
  revert l s t. induction es as [|e es IH]; intros l s t Hc.
  - exists []. simpl. by rewrite !app_nil_r.
  - rewrite !run_entries_cons.
    destruct (step_entry_frame f l s t e Hc) as (w1 & Hl & Hc1 & Hs & Ht & Hw & Hn).
    destruct (step_entry f (l, s) e) as [l1 s1].
    destruct (step_entry f (l, t) e) as [l1' t1]. simpl in *. subst l1'.
    destruct (IH l1 s1 t1 Hc1) as (w2 & Hl2 & Hc2 & Hs2 & Ht2 & Hw2 & Hn2).
    exists (w1 ++ w2). rewrite Hs2, Ht2, Hs, Ht, <- !app_assoc, length_app.
    repeat split; try done; [by apply Forall_app|simpl; lia].
Qed.

Lemma warning_not_error m : is_warning m = true -> is_error m = false.
Proof. by destruct m. Qed.

Lemma no_error_filter out :
  Forall (fun m => is_error m = false) out ->
  filter (fun m => is_error m = true) out = [].
Proof.
  induction 1 as [|m out Hm _ IH]; [done|].
  rewrite filter_cons, decide_False by congruence. exact IH.
Qed.

(** A bulk source that stops the program does so with an error
    message, before the loops or after the warnings of a loop that
    cannot print one; otherwise the loops only stop outside the typed
    values. *)
Lemma load_bulk_inl env l s e s' :
  load_bulk env l s = (inl e, s') ->
  (e = NotModelled
   /\ exists items f,
        json_loads (default [] (SKLAND_ACCOUNTS_JSON env)) = inr (JArr items)
        /\ detect_shape items = Some f
        /\ typed_entries f items = None)
  \/ (e = SystemExit 1
      /\ exists out m,
           is_error m = true
           /\ stdout s' = stdout s ++ MsgBulkDetected :: out ++ [m]
           /\ Forall (fun m => is_error m = false) out).
Proof.
  destruct (load_bulk_cases env)
    as [Ht|[(m & Hm & _ & E)|(Ht & items & f & Hv & Hd)]].
  - unfold load_bulk. rewrite Ht. discriminate.
  - rewrite E. intros [= <- <-]. right. split; [done|].
    exists [], m. split; [done|]. split; [|done].
    simpl. by rewrite <- app_assoc.
  - rewrite (load_bulk_array env l s items f Ht Hv Hd).
    pose proof (bulk_loop_gen f items l
                  (emit (MsgShape f) (emit MsgBulkDetected s))
                  (shape_fields _ _ (detect_shape_test _ _ Hd))) as H.
    destruct (prints_ok _ _).
    + destruct (typed_entries f items) as [es|] eqn:Hes; [by rewrite H|].
      destruct H as [s1 ->]. intros [= <- <-]. left. split; [done|].
      by exists items, f.
    + rewrite H. intros [= <- <-]. right. split; [done|].
      match goal with
      | |- context [run_entries ?f ?es (?l, ?s0)] =>
        destruct (run_entries_frame f es l s0 s0 eq_refl)
          as (ws & _ & _ & Hs & _ & Hw & _)
      end.
      exists (MsgShape f :: ws), (ErrBadFormat SurrogatesNotAllowed).
      split; [done|]. cbn [stdout emit]. rewrite Hs. simpl.
      rewrite <- !app_assoc. split; [done|].
      constructor; [done|].
      eapply Forall_impl; [exact Hw|]. apply warning_not_error.
Qed.

Lemma merge_sources_inl env s e s2 :
  merge_sources env s = (inl e, s2) ->
  (e = NotModelled
   /\ exists items f,
        json_loads (default [] (SKLAND_ACCOUNTS_JSON env)) = inr (JArr items)
        /\ detect_shape items = Some f
        /\ typed_entries f items = None)
  \/ (e = SystemExit 1
      /\ exists out m,
           is_error m = true
           /\ stdout s2 = stdout s ++ MsgStart :: MsgBulkDetected :: out ++ [m]
           /\ Forall (fun m => is_error m = false) out).
Proof.
  rewrite merge_sources_eq. unfold mbind, M_bind, bind.
  destruct (load_bulk _ _ _) as [[e1|l1] s1] eqn:Hb.
  - intros [= <- <-].
    apply load_bulk_inl in Hb as [?|(-> & out & m & Hm & Hs & Ho)];
      [by left|right].
    split; [done|]. exists out, m. split; [done|]. rewrite Hs. simpl.
    by rewrite <- !app_assoc.
  - rewrite load_standalone_eq. simpl.
    destruct (str_truthy _); [case_bool_decide|]; discriminate.
Qed.

(** What both sources print when neither stops the program. *)
Lemma merge_sources_inr_out env s l2 s2 :
  merge_sources env s = (inr l2, s2) ->
  exists out,
    stdout s2 = stdout s ++ out /\ Forall (fun m => is_error m = false) out.
Proof.
  rewrite merge_sources_eq. unfold mbind, M_bind, bind.
  destruct (load_bulk _ _ _) as [[e1|l1] s1] eqn:Hb; [discriminate|].
  assert (exists out1, stdout s1 = stdout s ++ out1
                       /\ Forall (fun m => is_error m = false) out1)
    as (out1 & Hs1 & Ho1).
  { apply load_bulk_inr in Hb as [(_ & _ & ->)|(f & es & _ & Ha)].
    - exists [MsgStart]. split; [done|]. by repeat constructor.
    - unfold after_bulk in Ha. injection Ha as _ <-.
      match goal with
      | |- context [run_entries ?f ?es (?l, ?s0)] =>
        destruct (run_entries_frame f es l s0 s0 eq_refl)
          as (ws & _ & _ & Hs & _ & Hw & _)
      end.
      eexists. cbn [stdout emit]. rewrite Hs. simpl. rewrite <- !app_assoc.
      split; [reflexivity|].
      repeat (apply Forall_cons; split; [done|]).
      apply Forall_app. split; [|by repeat constructor].
      eapply Forall_impl; [exact Hw|]. apply warning_not_error. }
  rewrite load_standalone_eq. simpl.
  destruct (str_truthy _); [case_bool_decide|]; intros [= _ <-]; simpl.
  - eexists. rewrite Hs1, <- !app_assoc. split; [reflexivity|].
    apply Forall_app. split; [done|]. by repeat constructor.
  - eexists. rewrite Hs1, <- !app_assoc. split; [reflexivity|].
    apply Forall_app. split; [done|]. by repeat constructor.
  - by exists out1.
Qed.

(** X1.  For a decoder that returns a value or raises
    [JSONDecodeError], a run ends in one of three ways.  It returns, and
    then the disk accepted the write, the file holds the dumped
    document, no error was printed and the last message counts the
    users.  Or it exits with status 1, and then the file does not hold
    a document and exactly one error was printed, as the last message;
    a warning that cannot be printed ends the run this way.  Or the
    bulk array holds a truthy nickname or token that is not a string. *)
Theorem run_outcomes env d :
  ((run env d).1 = inr tt
   /\ d = WriteOk
   /\ errors (run env d).2 = []
   /\ exists cfg,
        config_yaml (run env d).2 = Dumped cfg
        /\ users cfg <> []
        /\ last (stdout (run env d).2) = Some (MsgDone (length (users cfg))))
  \/ ((run env d).1 = inl (SystemExit 1)
      /\ (forall cfg, config_yaml (run env d).2 <> Dumped cfg)
      /\ exists out m,
           stdout (run env d).2 = out ++ [m]
           /\ is_error m = true
           /\ errors (run env d).2 = [m])
  \/ ((run env d).1 = inl NotModelled
      /\ exists items f,
           json_loads (default [] (SKLAND_ACCOUNTS_JSON env)) = inr (JArr items)
           /\ detect_shape items = Some f
           /\ typed_entries f items = None).
Proof.
  unfold run, errors. rewrite main_eq, load_and_merge_eq.
  destruct (merge_sources env initial_state) as [[e|l2] s2] eqn:Hm.
  - pose proof (keeps_file_merge_sources _ _ _ _ Hm) as Hfile.
    apply merge_sources_inl in Hm as [[-> ?]|(-> & out & m & Hm & Hout & Hne)].
    + by right; right.
    + right; left. simpl. split; [done|]. split; [by rewrite Hfile|].
      exists (MsgStart :: MsgBulkDetected :: out), m. rewrite Hout. simpl.
      split; [done|]. split; [done|].
      rewrite !filter_cons, !decide_False by done.
      rewrite filter_app, (no_error_filter _ Hne). simpl.
      rewrite filter_cons, decide_True by done. done.
  - pose proof (keeps_file_merge_sources _ _ _ _ Hm) as Hfile.
    destruct (merge_sources_inr_out _ _ _ _ Hm) as (out & Hout & Hne).
    simpl in Hout, Hfile. pose proof (no_error_filter _ Hne) as Hf.
    destruct (final_accounts l2) as [|a accounts] eqn:Hacc.
    + right; left. simpl. split; [done|]. split; [by rewrite Hfile|].
      exists out, ErrNoAccounts. rewrite Hout.
      split; [done|]. split; [done|].
      by rewrite filter_app, Hf.
    + destruct d as [|o|o]; unfold finish;
        cbn [fst snd stdout emit with_file config_yaml].
      * left. split; [done|]. split; [done|]. rewrite Hout.
        split; [by rewrite filter_app, Hf|].
        eexists. split; [done|]. cbn [users]. split; [|by rewrite last_snoc].
        intros Hnil%(f_equal length).
        by rewrite (Permutation_length (list_sort_perm _)) in Hnil.
      * right; left. split; [done|]. split; [by rewrite Hfile|].
        exists out, (ErrWrite (OSError o)). rewrite Hout.
        split; [done|]. split; [done|]. by rewrite filter_app, Hf.
      * right; left. split; [done|]. split; [done|].
        exists out, (ErrWrite (OSError o)). rewrite Hout.
        split; [done|]. split; [done|]. by rewrite filter_app, Hf.
Qed.





(** ** Further properties: the merged accounts *)

Lemma load_bulk_absent env l s :
  str_truthy (default [] (SKLAND_ACCOUNTS_JSON env)) = false ->
  load_bulk env l s = (inr l, s).
Proof. unfold load_bulk. by intros ->. Qed.

(** After the bulk source the locals hold the accounts and the tokens
    read off the entries. *)
Lemma merge_sources_source env es s l2 s2 :
  source_entries env = Some es ->
  merge_sources env s = (inr l2, s2) ->
  exists l1 s1,
    load_standalone env l1 s1 = (inr l2, s2)
    /\ final_accounts l1 = bulk_accounts es
    /\ seen_tokens l1 = distinct_tokens es.
Proof.
  unfold source_entries.
  destruct (str_truthy _) eqn:Et.
  - destruct (bulk_entries env) as [[f es']|] eqn:Hb; [|discriminate].
    intros [= <-] Hm.
    pose proof (merge_sources_prints _ _ _ _ _ _ Hb Hm) as Hp.
    rewrite (merge_sources_typed env f es' s Hb Hp) in Hm.
    destruct (after_bulk_facts f es' (with_counter 0 (emit MsgStart s)) eq_refl)
      as (Ha & Hs & _).
    eauto.
  - intros [= <-]. rewrite merge_sources_eq.
    rewrite (bind_inr _ _ _ _ _ (load_bulk_absent env _ _ Et)).
    intros Hm. eexists _, _. split; [exact Hm|]. split; [done|].
    unfold distinct_tokens. simpl. set_solver.
Qed.

Lemma merged_accounts env es s accounts s' :
  source_entries env = Some es ->
  load_and_merge_accounts env s = (inr accounts, s') ->
  accounts = bulk_accounts es ++ standalone_accounts env es.
Proof.
  intros Hsrc (l2 & Hm & -> & _)%load_and_merge_inr.
  destruct (merge_sources_source env es s _ _ Hsrc Hm)
    as (l1 & s1 & Hm1 & Ha & Hs).
  rewrite load_standalone_eq in Hm1. cbn zeta in Hm1.
  unfold standalone_accounts, final_nickname. rewrite <- Hs, <- Ha.
  destruct (str_truthy (default [] (SKLAND_TOKEN env)));
    [case_bool_decide|]; injection Hm1 as <- _; simpl; by rewrite ?app_nil_r.
Qed.

Lemma elem_of_distinct_tokens t es :
  t ∈ distinct_tokens es <-> t <> [] /\ t ∈ raw_token <$> es.
Proof.
  unfold distinct_tokens. rewrite elem_of_list_to_set, list_elem_of_filter.
  done.
Qed.

Lemma elem_of_bulk_accounts a es :
  a ∈ bulk_accounts es
  <-> exists i e, es !! i = Some e /\ account_at 0 ∅ es i e = Some a.
Proof.
  unfold bulk_accounts. rewrite list_elem_of_omap. split.
  - intros (x & Hx & Hid). apply elem_of_lookup_imap in Hx as (i & e & -> & He).
    eauto.
  - intros (i & e & He & Ha). exists (Some a). split; [|done].
    apply elem_of_lookup_imap. exists i, e. by rewrite Ha.
Qed.

(** What [account_at] says of an account. *)
Lemma account_at_Some es i e a :
  account_at 0 ∅ es i e = Some a ->
  token a = raw_token e
  /\ raw_token e <> []
  /\ (forall j e', j < i -> es !! j = Some e' -> raw_token e' <> raw_token e)
  /\ nickname a
     = (if unnamed e then default_nickname (rank es i) else raw_nickname e).
Proof.
  unfold account_at, accepted_at.
  destruct (str_truthy (raw_token e)) eqn:Et; [|done]. simpl.
  rewrite bool_decide_eq_true_2 by set_solver. simpl.
  case_bool_decide as Hnot; [|done]. intros [= <-]. simpl.
  split; [done|]. split; [by apply str_truthy_ne|]. split; [|done].
  intros j e' Hj He' Heq. apply Hnot. rewrite <- Heq.
  apply list_elem_of_fmap. exists e'. split; [done|].
  apply list_elem_of_lookup. exists j. by rewrite lookup_take_lt.
Qed.

(** X3.  The tokens of the merged accounts are the distinct non-empty
    tokens of the bulk entries and the standalone token when it is not
    empty, each once: no token of the input is lost, none is invented. *)
Theorem merged_tokens env es s accounts s' :
  source_entries env = Some es ->
  load_and_merge_accounts env s = (inr accounts, s') ->
  list_to_set (token <$> accounts)
  = distinct_tokens es
    ∪ (if str_truthy (default [] (SKLAND_TOKEN env))
       then {[default [] (SKLAND_TOKEN env)]} else ∅)
  /\ NoDup (token <$> accounts)
  /\ length accounts
     = size (distinct_tokens es
             ∪ (if str_truthy (default [] (SKLAND_TOKEN env))
                then {[default [] (SKLAND_TOKEN env)]} else ∅)).
Proof.
  intros Hsrc Hload.
  pose proof Hload as (l2 & Hm & -> & _)%load_and_merge_inr.
  pose proof (merge_sources_consistent _ _ _ _ Hm) as Hc.
  pose proof (consistent_length _ Hc) as Hlen. destruct Hc as (Hset & Hnd & _).
  destruct (merge_sources_source env es s _ _ Hsrc Hm)
    as (l1 & s1 & Hm1 & _ & Hs).
  clear Hm. rename Hm1 into Hm.
  rewrite load_standalone_eq in Hm. cbn zeta in Hm.
  assert (seen_tokens l2
          = distinct_tokens es
            ∪ (if str_truthy (default [] (SKLAND_TOKEN env))
               then {[default [] (SKLAND_TOKEN env)]} else ∅)) as Hseen.
  { rewrite <- Hs.
    destruct (str_truthy (default [] (SKLAND_TOKEN env)));
      [case_bool_decide|]; injection Hm as <- _; simpl; set_solver. }
  rewrite <- Hseen. by rewrite Hlen, Hset.
Qed.

(** X4.  The first entry that carries a token names the account: an
    account of the merged list whose token occurs in the bulk array has
    the nickname of the first entry with this token, or the default
    nickname of that entry's rank when the entry has none. *)
Theorem first_entry_names_the_account env f es s accounts s' a :
  bulk_entries env = Some (f, es) ->
  load_and_merge_accounts env s = (inr accounts, s') ->
  a ∈ accounts ->
  token a ∈ raw_token <$> es ->
  exists i e,
    es !! i = Some e
    /\ raw_token e = token a
    /\ (forall j e', j < i -> es !! j = Some e' -> raw_token e' <> token a)
    /\ nickname a
       = (if unnamed e then default_nickname (rank es i) else raw_nickname e).
Proof.
  intros Hb Hload Ha Htok.
  assert (source_entries env = Some es) as Hsrc.
  { unfold source_entries. rewrite Hb. simpl.
    unfold bulk_entries in Hb. by destruct (str_truthy _). }
  pose proof (merged_accounts _ _ _ _ _ Hsrc Hload) as ->.
  apply elem_of_app in Ha as [Ha|Ha].
  - apply elem_of_bulk_accounts in Ha as (i & e & He & Hat).
    apply account_at_Some in Hat as (Ht & _ & Hfirst & Hn).
    exists i, e. rewrite Ht. done.
  - unfold standalone_accounts in Ha.
    destruct (str_truthy _) eqn:Et; [|by apply elem_of_nil in Ha].
    case_bool_decide as Hnot; [|by apply elem_of_nil in Ha].
    apply list_elem_of_singleton in Ha as ->. simpl in *.
    destruct Hnot. apply elem_of_distinct_tokens.
    split; [by apply str_truthy_ne|done].
Qed.

Lemma default_nickname_not_standalone n : default_nickname n <> STANDALONE_NICKNAME.
Proof.
  change STANDALONE_NICKNAME
    with (DEFAULT_NICKNAME_PREFIX ++ u "-" ++ [29420; 31435]%N).
  unfold default_nickname, str_of_nat. intros H.
  do 2 apply app_inv_head in H.
  pose proof (uint_digits_range (Nat.to_uint n)) as Hr. rewrite H in Hr.
  apply Forall_cons in Hr as [? _]. lia.
Qed.

(** Where an account of the merged list comes from: an entry that has a
    nickname, an entry that has none, or the standalone pair. *)
Lemma account_origin env es a :
  a ∈ bulk_accounts es ++ standalone_accounts env es ->
  (exists e, e ∈ es /\ unnamed e = false /\ nickname a = raw_nickname e)
  \/ (exists i e, es !! i = Some e /\ unnamed e = true
        /\ token a = raw_token e
        /\ nickname a = default_nickname (rank es i))
  \/ (token a = default [] (SKLAND_TOKEN env)
      /\ nickname a = final_nickname env).
Proof.
  intros [Ha|Ha]%elem_of_app.
  - apply elem_of_bulk_accounts in Ha as (i & e & He & Hat).
    apply account_at_Some in Hat as (Ht & _ & _ & Hn).
    destruct (unnamed e) eqn:Eu.
    + right; left. eauto 10.
    + left. exists e. split; [|done]. apply list_elem_of_lookup. eauto.
  - unfold standalone_accounts in Ha.
    destruct (_ && _); [|by apply elem_of_nil in Ha].
    apply list_elem_of_singleton in Ha as ->. by right; right.
Qed.

(** X5.  Two accounts of the merged list have the same nickname only
    when the input supplied it, as the nickname of a bulk entry or as the
    standalone nickname: the default nicknames the program makes up, with
    a number or for the standalone pair, differ from one another. *)
Theorem shared_nickname_is_supplied env es s accounts s' a b :
  source_entries env = Some es ->
  load_and_merge_accounts env s = (inr accounts, s') ->
  a ∈ accounts -> b ∈ accounts ->
  token a <> token b ->
  nickname a = nickname b ->
  nickname a ∈ raw_nickname <$> es \/ nickname a = standalone_nickname env.
Proof.
  intros Hsrc Hload Ha Hb Htok Hnick.
  rewrite (merged_accounts _ _ _ _ _ Hsrc Hload) in Ha, Hb.
  apply account_origin in Ha, Hb.
  destruct Ha as [(e & He & _ & Hn)|Ha].
  { left. rewrite Hn. by apply list_elem_of_fmap_2. }
  destruct Hb as [(e & He & _ & Hn)|Hb].
  { left. rewrite Hnick, Hn. by apply list_elem_of_fmap_2. }
  assert (forall c n, nickname c = final_nickname env ->
            nickname c = default_nickname n ->
            nickname c = standalone_nickname env) as Hfinal.
  { intros c n Hc Hd. rewrite Hc. unfold final_nickname in *.
    destruct (str_truthy (standalone_nickname env)); [done|].
    rewrite Hc in Hd. by destruct (default_nickname_not_standalone n). }
  destruct Ha as [(i & ei & Hi & Hui & Hti & Hni)|[Hta Hna]],
           Hb as [(j & ej & Hj & Huj & Htj & Hnj)|[Htb Hnb]].
  - rewrite Hni, Hnj in Hnick. apply default_nickname_inj in Hnick.
    destruct (Nat.lt_trichotomy i j) as [Hlt|[->|Hlt]].
    + pose proof (rank_lt es i j ej Hlt Hj Huj). lia.
    + rewrite Hi in Hj. injection Hj as ->. congruence.
    + pose proof (rank_lt es j i ei Hlt Hi Hui). lia.
  - right. rewrite Hnick. apply (Hfinal b (rank es i)); congruence.
  - right. apply (Hfinal a (rank es j)); congruence.
  - congruence.
Qed.

(** ** Further properties: shapes, the standalone pair, repeated calls *)

Lemma single_key_not_both item :
  is_single_key item = true -> has_nickname_and_token item = false.
Proof.
  destruct item as [| | | | | |members]; try done. simpl.
  intros Hlen%bool_decide_eq_true.
  destruct members as [|[k v] [|? ?]]; try done.
  unfold dict_contains. simpl.
  case_bool_decide as Hk; [|done]. subst k. by vm_compute.
Qed.

(** X6.  The two shapes cannot be mixed: an array that holds an object
    with one key beside an element that is not such an object passes
    neither test, whatever the keys are, and the run exits with status 1
    before any account is read. *)
Theorem mixed_shapes_are_fatal env d text items a b :
  SKLAND_ACCOUNTS_JSON env = Some text ->
  text <> [] ->
  json_loads text = inr (JArr items) ->
  a ∈ items -> b ∈ items ->
  is_single_key a = true ->
  is_single_key b = false ->
  run env d = (inl (SystemExit 1), bulk_failure (ErrBadFormat NeitherShape)).
Proof.
  intros Henv Htext%str_truthy_ne Hv Ha Hb Hsa Hsb.
  assert (forallb is_single_key items = false) as H1.
  { apply not_true_is_false. intros H. rewrite forallb_forall in H.
    apply list_elem_of_In in Hb. rewrite (H _ Hb) in Hsb. done. }
  assert (forallb has_nickname_and_token items = false) as H2.
  { apply not_true_is_false. intros H. rewrite forallb_forall in H.
    apply list_elem_of_In in Ha. specialize (H _ Ha).
    by rewrite (single_key_not_both _ Hsa) in H. }
  apply run_bulk_failure.
  unfold load_bulk, parse_bulk. rewrite Henv. simpl. rewrite Htext.
  unfold mbind, M_bind, bind, try_except. simpl. rewrite Hv. simpl.
  by rewrite H1, H2.
Qed.

Lemma remove_marker_nil s : remove_marker s = [] <-> s = [] \/ s = MARKER.
Proof.
  split.
  - unfold remove_marker.
    destruct (str_truthy s && endswith s MARKER) eqn:E; [|by left].
    apply andb_prop in E as [_ E]. apply endswith_inv in E.
    intros Hs. right. by rewrite E, Hs.
  - by intros [->| ->].
Qed.

(** X7.  With no bulk variable and a token, the run writes one user
    with this token as it is.  The nickname is the stripped standalone
    nickname without its marker; when this is empty, that is when the
    stripped nickname is empty or is the marker alone, it is the
    placeholder of the standalone pair.  The counter is not used. *)
Theorem standalone_only env tok :
  default [] (SKLAND_ACCOUNTS_JSON env) = [] ->
  SKLAND_TOKEN env = Some tok ->
  tok <> [] ->
  let core := strip (default [] (SKLAND_NICKNAME env)) in
  let nick := if bool_decide (core = [] \/ core = MARKER)
              then STANDALONE_NICKNAME else remove_marker core in
  nick <> []
  /\ run env WriteOk
     = (inr tt,
        {| unnamed_account_counter := 0;
           stdout := [MsgStart; MsgStandaloneDetected; MsgStandaloneLoaded;
                      MsgDone 1];
           config_yaml :=
             Dumped {| log_level := u "info";
                       users := [mkAccount nick tok] |} |}).
Proof.
  intros Hbulk Htok Hne%str_truthy_ne. cbn zeta.
  pose proof (remove_marker_nil (strip (default [] (SKLAND_NICKNAME env))))
    as Hnil.
  assert (final_nickname env
          = if bool_decide (strip (default [] (SKLAND_NICKNAME env)) = []
                            \/ strip (default [] (SKLAND_NICKNAME env)) = MARKER)
            then STANDALONE_NICKNAME
            else remove_marker (strip (default [] (SKLAND_NICKNAME env))))
    as Hfinal.
  { unfold final_nickname, standalone_nickname.
    case_bool_decide as Hc.
    - apply Hnil in Hc. by rewrite Hc.
    - destruct (remove_marker _) eqn:E; [|done]. destruct Hc. by apply Hnil. }
  split.
  - case_bool_decide as Hc; [done|]. intros E. by apply Hc, Hnil.
  - rewrite <- Hfinal. unfold run.
    assert (str_truthy (default [] (SKLAND_ACCOUNTS_JSON env)) = false) as Hb.
    { by rewrite Hbulk. }
    rewrite main_eq, load_and_merge_eq, merge_sources_eq.
    rewrite (bind_inr _ _ _ _ _ (load_bulk_absent env _ _ Hb)).
    rewrite load_standalone_eq, Htok. simpl. rewrite Hne.
    rewrite bool_decide_eq_true_2 by set_solver. done.
Qed.

Lemma same_run_bind {A B} (m : M A) (k : A -> M B) s t :
  same_run (m s) (m t) s t ->
  (forall a s1 t1,
     unnamed_account_counter s1 = unnamed_account_counter t1 ->
     same_run (k a s1) (k a t1) s1 t1) ->
  same_run ((m ≫= k) s) ((m ≫= k) t) s t.
Proof.
  unfold same_run, mbind, M_bind, bind.
  destruct (m s) as [[e|a] s1], (m t) as [[e'|a'] t1]; simpl;
    intros [Heq H] Hk; try discriminate.
  - injection Heq as <-. split; [done|]. intros Hnm. apply H.
    intros [= ->]. by apply Hnm.
  - injection Heq as <-.
    destruct H as (Hc & out1 & Hs1 & Ht1); [done|].
    destruct (Hk a s1 t1 Hc) as [Hr Hrest]. split; [done|].
    intros Hnm. destruct (Hrest Hnm) as (Hc2 & out2 & Hs2 & Ht2).
    split; [done|]. exists (out1 ++ out2).
    by rewrite Hs2, Ht2, Hs1, Ht1, <- !app_assoc.
Qed.

Lemma same_run_load_bulk env l s t :
  unnamed_account_counter s = unnamed_account_counter t ->
  same_run (load_bulk env l s) (load_bulk env l t) s t.
Proof.
  intros Hc. unfold same_run.
  destruct (load_bulk_cases env)
    as [Ht|[(m & _ & _ & E)|(Ht & items & f & Hv & Hd)]].
  - rewrite !(load_bulk_absent env _ _ Ht). simpl.
    split; [done|]. intros _. split; [done|].
    exists []. by rewrite !app_nil_r.
  - rewrite !E. simpl. split; [done|]. intros _. split; [done|].
    eexists. rewrite <- !app_assoc. split; reflexivity.
  - rewrite !(load_bulk_array env l _ items f Ht Hv Hd).
    assert (unnamed_account_counter (emit (MsgShape f) (emit MsgBulkDetected s))
            = unnamed_account_counter (emit (MsgShape f) (emit MsgBulkDetected t)))
      as Hc0 by done.
    pose proof (bulk_loop_gen f items l
                  (emit (MsgShape f) (emit MsgBulkDetected s))
                  (shape_fields _ _ (detect_shape_test _ _ Hd))) as Hs.
    pose proof (bulk_loop_gen f items l
                  (emit (MsgShape f) (emit MsgBulkDetected t))
                  (shape_fields _ _ (detect_shape_test _ _ Hd))) as Hl.
    destruct (prints_ok _ _).
    + destruct (typed_entries f items) as [es|].
      * rewrite Hs, Hl.
        destruct (run_entries_frame f (typed_prefix f items) l _ _ Hc0)
          as (ws & Hl' & Hc' & Hs' & Ht' & _).
        cbn [fst snd stdout emit unnamed_account_counter].
        rewrite Hl'. split; [done|]. intros _. split; [done|].
        eexists. rewrite Hs', Ht'. cbn [stdout emit]. rewrite <- !app_assoc.
        split; reflexivity.
      * destruct Hs as [s1 ->], Hl as [t1 ->]. simpl.
        split; [done|]. by intros [].
    + rewrite Hs, Hl.
      destruct (run_entries_frame f
                  (printed_prefix (seen_tokens l) (typed_prefix f items))
                  l _ _ Hc0)
        as (ws & Hl' & Hc' & Hs' & Ht' & _).
      cbn [fst snd stdout emit unnamed_account_counter].
      split; [done|]. intros _. split; [done|].
      eexists. rewrite Hs', Ht'. cbn [stdout emit]. rewrite <- !app_assoc.
      split; reflexivity.
Qed.

Lemma same_run_load_standalone env l s t :
  unnamed_account_counter s = unnamed_account_counter t ->
  same_run (load_standalone env l s) (load_standalone env l t) s t.
Proof.
  intros Hc. rewrite !load_standalone_eq. cbn zeta. unfold same_run.
  destruct (str_truthy _); [case_bool_decide|]; simpl;
    (split; [done|]); intros _; (split; [done|]).
  - eexists. rewrite <- !app_assoc. split; reflexivity.
  - eexists. rewrite <- !app_assoc. split; reflexivity.
  - exists []. by rewrite !app_nil_r.
Qed.

(** X8.  [load_and_merge_accounts] starts afresh at every call: the
    accounts it returns, or the way it stops, do not depend on the
    counter, the output or the file left by what ran before, so that a
    second call in the same process numbers the accounts as the first
    did and prints the same messages after those already printed. *)
Theorem load_and_merge_is_repeatable env s t :
  (load_and_merge_accounts env s).1 = (load_and_merge_accounts env t).1
  /\ ((load_and_merge_accounts env s).1 <> inl NotModelled ->
      unnamed_account_counter (load_and_merge_accounts env s).2
      = unnamed_account_counter (load_and_merge_accounts env t).2
      /\ exists out,
           stdout (load_and_merge_accounts env s).2 = stdout s ++ out
           /\ stdout (load_and_merge_accounts env t).2 = stdout t ++ out).
Proof.
  change (same_run (load_and_merge_accounts env s)
                   (load_and_merge_accounts env t) s t).
  assert (same_run (merge_sources env s) (merge_sources env t) s t) as Hm.
  { rewrite !merge_sources_eq.
    destruct (same_run_bind
                (load_bulk env {| final_accounts := []; seen_tokens := ∅ |})
                (load_standalone env)
                (with_counter 0 (emit MsgStart s))
                (with_counter 0 (emit MsgStart t))) as [Hr Hrest].
    - by apply same_run_load_bulk.
    - intros l1 s1 t1 Hc. by apply same_run_load_standalone.
    - split; [done|]. intros Hnm.
      destruct (Hrest Hnm) as (Hc & out & Hs & Ht). split; [done|].
      exists (MsgStart :: out). simpl in Hs, Ht.
      by rewrite Hs, Ht, <- !app_assoc. }
  rewrite !load_and_merge_eq. unfold same_run in *.
  destruct (merge_sources env s) as [[e|l2] s2],
           (merge_sources env t) as [[e'|l2'] t2];
    simpl in *; destruct Hm as [Heq H]; try discriminate.
  - injection Heq as <-. split; [done|]. intros Hnm. apply H.
    intros [= ->]. by apply Hnm.
  - injection Heq as <-.
    destruct H as (Hc & out & Hs & Ht); [done|].
    destruct (final_accounts l2); simpl; (split; [done|]); intros _;
      (split; [done|]).
    + exists (out ++ [ErrNoAccounts]). by rewrite Hs, Ht, <- !app_assoc.
    + by exists out.
Qed.

(** X9.  The nickname [get_next_default_nickname] returns tells the
    value of the counter: two calls return the same nickname only from
    the same value.  The nickname is not empty and is never the
    placeholder of the standalone pair; a call adds one to the counter
    and prints nothing. *)
Theorem next_default_nickname_is_fresh s t n m s' t' :
  get_next_default_nickname s = (inr n, s') ->
  get_next_default_nickname t = (inr m, t') ->
  (n = m <-> unnamed_account_counter s = unnamed_account_counter t)
  /\ n <> STANDALONE_NICKNAME
  /\ str_truthy n = true
  /\ unnamed_account_counter s' = S (unnamed_account_counter s)
  /\ stdout s' = stdout s.
Proof.
  unfold get_next_default_nickname. intros [= <- <-] [= <- <-].
  split; [|split; [apply default_nickname_not_standalone|done]].
  split; [|by intros ->].
  intros H%default_nickname_inj. by injection H.
Qed.

(** X10.  When the accounts are read but the file cannot be written,
    the run prints what the successful run prints up to its last
    message, then the error of the disk in place of the count, and exits
    with status 1.  The file is not touched when it could not be opened
    and is left truncated when the dump failed. *)
Theorem write_failure env s_ok e :
  run env WriteOk = (inr tt, s_ok) ->
  (run env (OpenFails e)).1 = inl (SystemExit 1)
  /\ (run env (DumpFails e)).1 = inl (SystemExit 1)
  /\ stdout (run env (OpenFails e)).2
     = removelast (stdout s_ok) ++ [ErrWrite (OSError e)]
  /\ stdout (run env (DumpFails e)).2
     = removelast (stdout s_ok) ++ [ErrWrite (OSError e)]
  /\ config_yaml (run env (OpenFails e)).2 = Untouched
  /\ config_yaml (run env (DumpFails e)).2 = Truncated
  /\ unnamed_account_counter (run env (OpenFails e)).2
     = unnamed_account_counter s_ok.
Proof.
  unfold run. rewrite !main_eq.
  destruct (load_and_merge_accounts env initial_state) as [[x|accounts] s1] eqn:E;
    [discriminate|].
  pose proof (keeps_file_load_and_merge _ _ _ _ E) as Hfile.
  unfold finish. intros [= <-]. cbn [fst snd stdout emit with_file
    config_yaml unnamed_account_counter].
  rewrite removelast_last. done.
Qed.

(** ** Further properties: a warning that cannot be printed *)



End Program.

(** ** The scenarios of the specification, run *)

Example ex_constants :
  MARKER = [95; 69; 78; 68]%N
  /\ DEFAULT_NICKNAME_PREFIX = [26410; 21629; 21517; 36134; 21495]%N
  /\ default_nickname 12 = u "未命名账号-12"
  /\ strip (u "  Alice_END  ") = u "Alice_END".
Proof. by vm_compute. Qed.

Example ex_scenario1 :
  run example_loads scenario1 WriteOk
  = (inr tt,
     {| unnamed_account_counter := 1;
        stdout := [MsgStart; MsgBulkDetected; MsgShape Compact;
                   MsgBulkLoaded 2; MsgDone 2];
        config_yaml :=
          Dumped {| log_level := u "info";
                    users := [mkAccount (u "a") (u "t1");
                              mkAccount (u "未命名账号-1") (u "t2")] |} |}).
Proof. by vm_compute. Qed.

Example ex_scenario2 :
  run example_loads scenario2 WriteOk
  = (inr tt,
     {| unnamed_account_counter := 0;
        stdout := [MsgStart; MsgBulkDetected; MsgShape Explicit;
                   MsgBulkLoaded 1; MsgStandaloneDetected;
                   WarnStandaloneDuplicate; MsgDone 1];
        config_yaml :=
          Dumped {| log_level := u "info";
                    users := [mkAccount (u "a") (u "t1")] |} |}).
Proof. by vm_compute. Qed.

Example ex_scenario3 d :
  run example_loads scenario3 d
  = (inl (SystemExit 1),
     {| unnamed_account_counter := 0;
        stdout := [MsgStart; ErrNoAccounts];
        config_yaml := Untouched |}).
Proof. by vm_compute. Qed.

Example ex_write_failure e :
  run example_loads scenario1 (DumpFails e)
  = (inl (SystemExit 1),
     {| unnamed_account_counter := 1;
        stdout := [MsgStart; MsgBulkDetected; MsgShape Compact;
                   MsgBulkLoaded 2; ErrWrite (OSError e)];
        config_yaml := Truncated |}).
Proof. by vm_compute. Qed.

(** The warning for the second entry holds its nickname, an unpaired
    surrogate, which standard output cannot encode: the run stops in
    the loop, although the standalone token is set. *)
Example ex_unprintable_warning d :
  run surrogate_loads surrogate_nickname d
  = (inl (SystemExit 1),
     {| unnamed_account_counter := 0;
        stdout := [MsgStart; MsgBulkDetected; MsgShape Compact;
                   ErrBadFormat SurrogatesNotAllowed];
        config_yaml := Untouched |}).
Proof. by vm_compute. Qed.

(** ** The properties on the examples *)





(** Scenario 3: no variable is set. *)
Lemma no_accounts_is_fatal_witness :
  let s2 := {| unnamed_account_counter := 0; stdout := [MsgStart];
               config_yaml := Untouched |} in
  merge_sources example_loads scenario3 initial_state = (inr empty_locals, s2)
  /\ final_accounts empty_locals = []
  /\ run example_loads scenario3 WriteOk
     = (inl (SystemExit 1), emit ErrNoAccounts s2)
  /\ exit_status (run example_loads scenario3 WriteOk).1 = Some 1%Z
  /\ config_yaml (run example_loads scenario3 WriteOk).2 = Untouched
  /\ last (stdout (run example_loads scenario3 WriteOk).2) = Some ErrNoAccounts.
Proof.
  cbv zeta. split; [by vm_compute|]. split; [done|].
  apply (no_accounts_is_fatal example_loads scenario3 WriteOk empty_locals);
    by vm_compute.
Defined.

(** Scenario 4, then a root that is an object, then an element with two
    keys that are not the two expected ones. *)
Lemma bad_bulk_is_fatal_witness :
  (SKLAND_ACCOUNTS_JSON scenario4 = Some (u "[invalid")
   /\ u "[invalid" <> []
   /\ example_loads (u "[invalid")
      = inl {| msg := u "Expecting value"; pos := 0 |}
   /\ run example_loads scenario4 WriteOk
      = (inl (SystemExit 1),
         bulk_failure (ErrInvalidJson {| msg := u "Expecting value"; pos := 0 |})))
  /\ run example_loads (bulk_only (q "{'a':'t1'}")) WriteOk
     = (inl (SystemExit 1), bulk_failure (ErrBadFormat RootNotArray))
  /\ run example_loads (bulk_only (q "[{'a':'t1','b':'t2'}]")) WriteOk
     = (inl (SystemExit 1), bulk_failure (ErrBadFormat NeitherShape)).
Proof.
  split; [split; [done|split; [done|split; [by vm_compute|]]]|split].
  - destruct (bad_bulk_is_fatal example_loads scenario4 WriteOk _ eq_refl
                ltac:(done)) as (H & _).
    apply H. by vm_compute.
  - destruct (bad_bulk_is_fatal example_loads (bulk_only (q "{'a':'t1'}"))
                WriteOk _ eq_refl ltac:(done)) as (_ & H & _).
    apply (H (JObj [(u "a", JStr (u "t1"))])); [by vm_compute|done].
  - destruct (bad_bulk_is_fatal example_loads
                (bulk_only (q "[{'a':'t1','b':'t2'}]"))
                WriteOk _ eq_refl ltac:(done)) as (_ & _ & H).
    apply (H [JObj [(u "a", JStr (u "t1")); (u "b", JStr (u "t2"))]]);
      by vm_compute.
Defined.

(** Nicknames b, a, b: the two accounts named b keep their order. *)
Lemma users_sorted_stable_witness :
  let accounts := [mkAccount (u "b") (u "t1"); mkAccount (u "a") (u "t2");
                   mkAccount (u "b") (u "t3")] in
  let sorted := [mkAccount (u "a") (u "t2"); mkAccount (u "b") (u "t1");
                 mkAccount (u "b") (u "t3")] in
  let s' := {| unnamed_account_counter := 0;
               stdout := [MsgStart; MsgBulkDetected; MsgShape Explicit;
                          MsgBulkLoaded 3; MsgDone 3];
               config_yaml := Dumped {| log_level := u "info"; users := sorted |} |} in
  run example_loads equal_nicknames WriteOk = (inr tt, s')
  /\ list_sort accounts = sorted
  /\ exists cfg accounts s1,
       load_and_merge_accounts example_loads equal_nicknames initial_state
       = (inr accounts, s1)
       /\ config_yaml s' = Dumped cfg
       /\ users cfg ≡ₚ accounts
       /\ StronglySorted by_nickname (users cfg)
       /\ forall n, filter (fun a => nickname a = n) (users cfg)
                    = filter (fun a => nickname a = n) accounts.
Proof.
  cbv zeta. split; [by vm_compute|]. split; [by vm_compute|].
  apply (users_sorted_stable example_loads equal_nicknames WriteOk).
  by vm_compute.
Defined.

(** Scenario 5: the marker is followed by two spaces. *)
Lemma standalone_nickname_trim_then_marker_witness :
  SKLAND_NICKNAME scenario5 = Some (u "  Alice_END  ")
  /\ u "  Alice_END  " = u "  " ++ u "Alice" ++ MARKER ++ u "  "
  /\ standalone_nickname scenario5 = u "Alice"
  /\ run example_loads scenario5 WriteOk
     = (inr tt,
        {| unnamed_account_counter := 0;
           stdout := [MsgStart; MsgStandaloneDetected; MsgStandaloneLoaded;
                      MsgDone 1];
           config_yaml :=
             Dumped {| log_level := u "info";
                       users := [mkAccount (u "Alice") (u "tok")] |} |}).
Proof.
  split; [done|]. split; [done|]. split; [|by vm_compute].
  destruct (standalone_nickname_trim_then_marker scenario5 _ eq_refl)
    as (_ & _ & H & _).
  apply (H (u "  ") (u "Alice") (u "  ")); [done| | |done];
    by repeat constructor.
Defined.

(** Scenario 1 again, for the dumped document. *)
Lemma output_document_invariant_witness :
  let s' := (run example_loads scenario1 WriteOk).2 in
  run example_loads scenario1 WriteOk = (inr tt, s')
  /\ exists cfg,
       config_yaml s' = Dumped cfg
       /\ log_level cfg = u "info"
       /\ Forall (fun a => token a <> []) (users cfg)
       /\ NoDup (token <$> users cfg).
Proof.
  cbv zeta. split; [by vm_compute|].
  apply (output_document_invariant example_loads scenario1 WriteOk).
  by vm_compute.
Defined.

(** The text of the empty array and no standalone token. *)
Lemma empty_array_is_compact_witness :
  SKLAND_ACCOUNTS_JSON empty_array = Some (q "[]")
  /\ q "[]" <> []
  /\ example_loads (q "[]") = inr (JArr [])
  /\ detect_shape [] = Some Compact
  /\ run example_loads empty_array WriteOk
     = (inl (SystemExit 1),
        {| unnamed_account_counter := 0;
           stdout := [MsgStart; MsgBulkDetected; MsgShape Compact;
                      MsgBulkLoaded 0; ErrNoAccounts];
           config_yaml := Untouched |}).
Proof.
  split; [done|]. split; [done|]. split; [by vm_compute|].
  destruct (empty_array_is_compact example_loads empty_array WriteOk _ eq_refl
              ltac:(done) ltac:(by vm_compute)) as (Hd & _ & Hrun).
  split; [exact Hd|]. by apply Hrun.
Defined.

(** ** The further properties on the examples *)


(** Tokens t1, t1, t2 in the array and tok beside it: three accounts. *)
Lemma merged_tokens_witness :
  let es := [mkEntry (u "a") (u "t1"); mkEntry (u "b") (u "t1");
             mkEntry [] (u "t2")] in
  let accounts := [mkAccount (u "a") (u "t1");
                   mkAccount (u "未命名账号-1") (u "t2");
                   mkAccount (u "未命名账号-独立") (u "tok")] in
  source_entries more_loads repeated_token = Some es
  /\ (load_and_merge_accounts more_loads repeated_token initial_state).1
     = inr accounts
  /\ list_to_set (token <$> accounts)
     = distinct_tokens es ∪ ({[u "tok"]} : gset str)
  /\ NoDup (token <$> accounts)
  /\ length accounts = size (distinct_tokens es ∪ ({[u "tok"]} : gset str)).
Proof.
  cbv zeta. split; [by vm_compute|]. split; [by vm_compute|].
  apply (merged_tokens more_loads repeated_token _ initial_state _
           (load_and_merge_accounts more_loads repeated_token initial_state).2);
    by vm_compute.
Defined.

(** The token t1 is carried by the entries named a and b: a names it. *)
Lemma first_entry_names_the_account_witness :
  let es := [mkEntry (u "a") (u "t1"); mkEntry (u "b") (u "t1");
             mkEntry [] (u "t2")] in
  let accounts := [mkAccount (u "a") (u "t1");
                   mkAccount (u "未命名账号-1") (u "t2");
                   mkAccount (u "未命名账号-独立") (u "tok")] in
  bulk_entries more_loads repeated_token = Some (Compact, es)
  /\ (load_and_merge_accounts more_loads repeated_token initial_state).1
     = inr accounts
  /\ mkAccount (u "a") (u "t1") ∈ accounts
  /\ u "t1" ∈ raw_token <$> es
  /\ exists i e,
       es !! i = Some e
       /\ raw_token e = u "t1"
       /\ (forall j e', j < i -> es !! j = Some e' -> raw_token e' <> u "t1")
       /\ u "a" = (if unnamed e then default_nickname (rank es i)
                   else raw_nickname e).
Proof.
  cbv zeta. split; [by vm_compute|]. split; [by vm_compute|].
  assert (mkAccount (u "a") (u "t1")
          ∈ [mkAccount (u "a") (u "t1");
             mkAccount (u "未命名账号-1") (u "t2");
             mkAccount (u "未命名账号-独立") (u "tok")]) as Ha.
  { apply list_elem_of_here. }
  assert (u "t1" ∈ raw_token <$> [mkEntry (u "a") (u "t1");
                                  mkEntry (u "b") (u "t1");
                                  mkEntry [] (u "t2")]) as Ht.
  { apply list_elem_of_here. }
  split; [exact Ha|]. split; [exact Ht|].
  apply (first_entry_names_the_account more_loads repeated_token Compact _
           initial_state
           [mkAccount (u "a") (u "t1");
            mkAccount (u "未命名账号-1") (u "t2");
            mkAccount (u "未命名账号-独立") (u "tok")]
           (load_and_merge_accounts more_loads repeated_token initial_state).2
           (mkAccount (u "a") (u "t1")));
    [by vm_compute|by vm_compute|exact Ha|exact Ht].
Defined.

(** Two entries are named b: the nickname the accounts share is theirs. *)
Lemma shared_nickname_is_supplied_witness :
  let es := [mkEntry (u "b") (u "t1"); mkEntry (u "a") (u "t2");
             mkEntry (u "b") (u "t3")] in
  let accounts := [mkAccount (u "b") (u "t1"); mkAccount (u "a") (u "t2");
                   mkAccount (u "b") (u "t3")] in
  source_entries example_loads equal_nicknames = Some es
  /\ (load_and_merge_accounts example_loads equal_nicknames initial_state).1
     = inr accounts
  /\ mkAccount (u "b") (u "t1") ∈ accounts
  /\ mkAccount (u "b") (u "t3") ∈ accounts
  /\ u "t1" <> u "t3"
  /\ (u "b" ∈ raw_nickname <$> es
      \/ u "b" = standalone_nickname equal_nicknames).
Proof.
  cbv zeta. split; [by vm_compute|]. split; [by vm_compute|].
  assert (mkAccount (u "b") (u "t1")
          ∈ [mkAccount (u "b") (u "t1"); mkAccount (u "a") (u "t2");
             mkAccount (u "b") (u "t3")]) as Ha.
  { apply list_elem_of_here. }
  assert (mkAccount (u "b") (u "t3")
          ∈ [mkAccount (u "b") (u "t1"); mkAccount (u "a") (u "t2");
             mkAccount (u "b") (u "t3")]) as Hb.
  { do 2 apply list_elem_of_further. apply list_elem_of_here. }
  split; [exact Ha|]. split; [exact Hb|]. split; [done|].
  apply (shared_nickname_is_supplied example_loads equal_nicknames _
           initial_state
           [mkAccount (u "b") (u "t1"); mkAccount (u "a") (u "t2");
            mkAccount (u "b") (u "t3")]
           (load_and_merge_accounts example_loads equal_nicknames initial_state).2
           (mkAccount (u "b") (u "t1")) (mkAccount (u "b") (u "t3")));
    [by vm_compute|by vm_compute|exact Ha|exact Hb|done|done].
Defined.

(** An object with one key beside an object with the two expected keys. *)
Lemma mixed_shapes_are_fatal_witness :
  let a := JObj [(u "a", JStr (u "t1"))] in
  let b := JObj [(u "nickname", JStr (u "b")); (u "token", JStr (u "t2"))] in
  SKLAND_ACCOUNTS_JSON mixed_shapes
  = Some (q "[{'a':'t1'},{'nickname':'b','token':'t2'}]")
  /\ more_loads (q "[{'a':'t1'},{'nickname':'b','token':'t2'}]")
     = inr (JArr [a; b])
  /\ is_single_key a = true
  /\ is_single_key b = false
  /\ run more_loads mixed_shapes WriteOk
     = (inl (SystemExit 1), bulk_failure (ErrBadFormat NeitherShape)).
Proof.
  cbv zeta. split; [done|]. split; [by vm_compute|]. split; [done|].
  split; [done|].
  apply (mixed_shapes_are_fatal more_loads mixed_shapes WriteOk _
           [JObj [(u "a", JStr (u "t1"))];
            JObj [(u "nickname", JStr (u "b")); (u "token", JStr (u "t2"))]]
           (JObj [(u "a", JStr (u "t1"))])
           (JObj [(u "nickname", JStr (u "b")); (u "token", JStr (u "t2"))])
           eq_refl);
    [done|by vm_compute|apply list_elem_of_here
    |apply list_elem_of_further, list_elem_of_here|done|done].
Defined.

(** The nickname is the marker between two spaces: the placeholder. *)
Lemma standalone_only_witness :
  default [] (SKLAND_ACCOUNTS_JSON marker_only) = []
  /\ SKLAND_TOKEN marker_only = Some (u "tok")
  /\ u "tok" <> []
  /\ strip (default [] (SKLAND_NICKNAME marker_only)) = MARKER
  /\ run example_loads marker_only WriteOk
     = (inr tt,
        {| unnamed_account_counter := 0;
           stdout := [MsgStart; MsgStandaloneDetected; MsgStandaloneLoaded;
                      MsgDone 1];
           config_yaml :=
             Dumped {| log_level := u "info";
                       users := [mkAccount STANDALONE_NICKNAME (u "tok")] |} |}).
Proof.
  split; [done|]. split; [done|]. split; [done|]. split; [by vm_compute|].
  by destruct (standalone_only example_loads marker_only (u "tok")
                 eq_refl eq_refl ltac:(done)) as [_ H].
Defined.

(** Two calls, from the counters 0 and 1. *)
Lemma next_default_nickname_is_fresh_witness :
  get_next_default_nickname initial_state
  = (inr (u "未命名账号-1"), with_counter 1 initial_state)
  /\ get_next_default_nickname (with_counter 1 initial_state)
     = (inr (u "未命名账号-2"), with_counter 2 initial_state)
  /\ u "未命名账号-1" <> u "未命名账号-2"
  /\ u "未命名账号-1" <> STANDALONE_NICKNAME.
Proof.
  split; [by vm_compute|]. split; [by vm_compute|].
  destruct (next_default_nickname_is_fresh initial_state
              (with_counter 1 initial_state) _ _ _ _
              ltac:(by vm_compute) ltac:(by vm_compute))
    as ([Hiff _] & Hns & _).
  split; [|exact Hns]. intros H. by apply Hiff in H.
Defined.

(** Scenario 1 on a disk that refuses the file. *)
Lemma write_failure_witness :
  let e := mkIoError (u "Permission denied") in
  let s_ok := (run example_loads scenario1 WriteOk).2 in
  run example_loads scenario1 WriteOk = (inr tt, s_ok)
  /\ run example_loads scenario1 (OpenFails e)
     = (inl (SystemExit 1),
        {| unnamed_account_counter := 1;
           stdout := [MsgStart; MsgBulkDetected; MsgShape Compact;
                      MsgBulkLoaded 2; ErrWrite (OSError e)];
           config_yaml := Untouched |})
  /\ stdout (run example_loads scenario1 (OpenFails e)).2
     = removelast (stdout s_ok) ++ [ErrWrite (OSError e)].
Proof.
  cbv zeta. split; [by vm_compute|]. split; [by vm_compute|].
  by destruct (write_failure example_loads scenario1 _
                 (mkIoError (u "Permission denied")) ltac:(by vm_compute))
    as (_ & _ & H & _).
Defined.

